(** * Alpay Advanced Fractal Sort: a shallow embedding of [src/main.cpp]

    The program sorts a [std::vector<int>] in place.  It has four functions:
    - [alpayTripleFixBidirectional]: the bidirectional triple pass (lines 19-44);
    - [alpayTripleSortPivotArray]: the same pass over a whole vector (49-51);
    - [alpayMultiBucketMerge]: a k-way merge through a min-heap (65-94);
    - [alpayFractalSortAdvanced]: the recursive driver (99-162).

    Modelling conventions.
    - A [std::vector<int>] is a [list Z]; [std::vector<std::vector<int>>] is
      a [list (list Z)].  Elements are only compared and copied, never
      computed with, so every [int] value is covered.
    - Indices and sizes are C [int]s, for which overflow is undefined.  Each
      of them is bounded by the length of a vector in memory, which is below
      2^31, so they are modelled as unbounded [Z].
    - Reading or writing a vector outside its bounds is undefined behaviour
      in C++; the model makes it the explicit outcome [Fault].
    - [while] loops and the recursion carry a budget; running out of it is
      the outcome [OutOfFuel].  Theorems about termination show that
      [OutOfFuel] does not occur, theorems about divergence that nothing else
      does.
    - [rand()] is a stream of non-negative draws, read through a counter
      that is threaded through the driver.
    - [std::priority_queue] is an interface with laws ([MinHeap]); the
      theorems hold for every implementation of it.
    - The three floating-point expressions are modelled by their exact
      values: the product with 0.15 by binary64 rounding in [outlierCut]. *)

From Stdlib Require Import ZArith List Lia Bool Sorted Permutation.
From stdpp Require Import base list sorting.

Open Scope Z_scope.

(** ** Outcomes *)

Inductive res (A : Type) : Type :=
| Done (a : A)
| Fault
| OutOfFuel.
Arguments Done {A} a.
Arguments Fault {A}.
Arguments OutOfFuel {A}.

Definition bind {A B : Type} (m : res A) (k : A -> res B) : res B :=
  match m with
  | Done a => k a
  | Fault => Fault
  | OutOfFuel => OutOfFuel
  end.

Notation "'let*' p ':=' m 'in' k" :=
  (bind m (fun p => k))
  (at level 10, p pattern, m at level 100, k at level 200).

(** ** Vectors of [int] *)

(** [(int)v.size()] *)
Definition size {A : Type} (v : list A) : Z := Z.of_nat (length v).

(** [v[i]] as an rvalue *)
Definition get {A : Type} (v : list A) (i : Z) : res A :=
  if 0 <=? i then
    match v !! Z.to_nat i with
    | Some x => Done x
    | None => Fault
    end
  else Fault.

(** [v[i] = x] *)
Definition set {A : Type} (v : list A) (i : Z) (x : A) : res (list A) :=
  if (0 <=? i) && (i <? size v) then Done (<[Z.to_nat i := x]> v) else Fault.

(** [std::swap(v[i], v[j])] *)
Definition swap (v : list Z) (i j : Z) : res (list Z) :=
  let* x := get v i in
  let* y := get v j in
  let* v := set v i y in
  set v j x.

(** A counted [for] loop whose index runs through [idx] and whose body
    updates a state. *)
Fixpoint forEach {S : Type} (body : Z -> S -> res S) (idx : list Z) (s : S)
  : res S :=
  match idx with
  | [] => Done s
  | i :: rest => let* s := body i s in forEach body rest s
  end.

(** ** 1) Bidirectional triple pass (lines 19-44) *)

(** [if (arr[i] > arr[i + 1]) { std::swap(arr[i], arr[i + 1]); changed = true; }] *)
Definition fixPair (i : Z) (st : list Z * bool) : res (list Z * bool) :=
  let '(arr, changed) := st in
  let* x := get arr i in
  let* y := get arr (i + 1) in
  if y <? x then
    let* arr := swap arr i (i + 1) in Done (arr, true)
  else Done (arr, changed).

(** The body shared by the two [for] loops: lines 33-35 and 39-41. *)
Definition fixTriple (i : Z) (st : list Z * bool) : res (list Z * bool) :=
  let* st := fixPair i st in
  let* st := fixPair (i + 1) st in
  fixPair i st.

(** [for (int i = start; i + 2 <= end; i++)] visits start, ..., end-2. *)
Definition forwardIdx (start end_ : Z) : list Z :=
  seqZ start (end_ - 1 - start).

(** [for (int i = end - 2; i >= start; i--)] visits end-2, ..., start. *)
Definition backwardIdx (start end_ : Z) : list Z :=
  reverse (seqZ start (end_ - 1 - start)).

(** One turn of the [while] body: [changed = false], forward pass, backward
    pass. *)
Definition fixCycle (arr : list Z) (start end_ : Z) : res (list Z * bool) :=
  let* st := forEach fixTriple (forwardIdx start end_) (arr, false) in
  forEach fixTriple (backwardIdx start end_) st.

(** [bool changed = true; while (changed) { ... }] with a budget of turns. *)
Fixpoint fixLoop (fuel : nat) (arr : list Z) (start end_ : Z)
  : res (list Z) :=
  match fuel with
  | O => OutOfFuel
  | S fuel' =>
      let* (arr', changed) := fixCycle arr start end_ in
      if changed then fixLoop fuel' arr' start end_ else Done arr'
  end.

(** Number of inversions of a list: pairs of positions in the wrong order. *)
Fixpoint inversions (l : list Z) : nat :=
  match l with
  | [] => O
  | x :: t => Nat.add (length (List.filter (fun y => y <? x) t)) (inversions t)
  end.

(** The elements at positions start..end (inclusive). *)
Definition subrange (arr : list Z) (start end_ : Z) : list Z :=
  take (Z.to_nat (end_ - start + 1)) (drop (Z.to_nat start) arr).

(** The budget the model gives the [while] loop: one turn per inversion of
    the range, and the last turn that finds nothing to swap.  It is never
    exhausted on a range inside the vector. *)
Definition fixBudget (arr : list Z) (start end_ : Z) : nat :=
  S (inversions (subrange arr start end_)).

Definition alpayTripleFixBidirectional (arr : list Z) (start end_ : Z)
  : res (list Z) :=
  if end_ <=? start then Done arr
  else if end_ - start =? 1 then
    let* x := get arr start in
    let* y := get arr (start + 1) in
    if y <? x then swap arr start (start + 1) else Done arr
  else fixLoop (fixBudget arr start end_) arr start end_.

(** ** 2) Pivot array sort (lines 49-51) *)

Definition alpayTripleSortPivotArray (pivots : list Z) : res (list Z) :=
  alpayTripleFixBidirectional pivots 0 (size pivots - 1).

(** ** 3) Min-heap based k-way merge (lines 56-94) *)

Record HeapItem : Type := mkItem { value : Z; bIndex : Z; iIndex : Z }.

(** [std::priority_queue<HeapItem, std::vector<HeapItem>, std::greater<HeapItem>>]
    is library code.  The merge is written against its interface: a container
    whose [top] is an item of least [value] (which one among equal values is
    not specified) and whose [pop] removes that item.  [heap_pop] is
    [empty()], [top()] and [pop()] in one step; [heap_items] is the content
    as a multiset and exists only for stating the laws. *)
Class MinHeap : Type := {
  heap : Type;
  heap_new : heap;
  heap_push : HeapItem -> heap -> heap;
  heap_pop : heap -> option (HeapItem * heap);
  heap_items : heap -> list HeapItem;
  heap_new_items : heap_items heap_new = [];
  heap_push_items : forall x h,
    Permutation (heap_items (heap_push x h)) (x :: heap_items h);
  heap_pop_none : forall h, heap_pop h = None -> heap_items h = [];
  heap_pop_some : forall h x h', heap_pop h = Some (x, h') ->
    Permutation (heap_items h) (x :: heap_items h') /\
    Forall (fun y => value x <= value y) (heap_items h')
}.

Section Sort.
Context {MH : MinHeap}.

(** Lines 73-78: the first item of every non-empty bucket. *)
Definition heapInit (buckets : list (list Z)) : res heap :=
  forEach
    (fun b h =>
       let* bucket := get buckets b in
       if size bucket =? 0 then Done h
       else let* v := get bucket 0 in Done (heap_push (mkItem v b 0) h))
    (seqZ 0 (size buckets)) heap_new.

(** Lines 83-93: [while (!minHeap.empty())], with a budget of turns. *)
Fixpoint mergeLoop (fuel : nat) (buckets : list (list Z)) (h : heap)
  (dest : list Z) : res (list Z) :=
  match heap_pop h with
  | None => Done dest
  | Some (top, h) =>
      match fuel with
      | O => OutOfFuel
      | S fuel' =>
          let dest := dest ++ [value top] in
          let nextIndex := iIndex top + 1 in
          let* bucket := get buckets (bIndex top) in
          if nextIndex <? size bucket then
            let* v := get bucket nextIndex in
            mergeLoop fuel' buckets
              (heap_push (mkItem v (bIndex top) nextIndex) h) dest
          else mergeLoop fuel' buckets h dest
      end
  end.

(** Line 68: [for (auto &b : buckets) total += (int)b.size();] *)
Definition totalSize (buckets : list (list Z)) : Z :=
  fold_left (fun total b => total + size b) buckets 0.

(** [dest] is the caller's vector; line 80 clears it.  The loop pops one
    item per element of the buckets, so [total] turns are its budget. *)
Definition alpayMultiBucketMerge (buckets : list (list Z)) (dest : list Z)
  : res (list Z) :=
  let total := totalSize buckets in
  let* h := heapInit buckets in
  let dest : list Z := [] in
  mergeLoop (Z.to_nat total) buckets h dest.

(** ** 4) The recursive driver (lines 99-162) *)

Definition ALPAY_SMALL_THRESH : Z := 12.

(** [PIVOT_OUTLIER_FRAC = 0.15] as the binary64 number it is stored as:
    [5404319552844595 * 2^-55]. *)
Definition PIVOT_OUTLIER_FRAC_mant : Z := 5404319552844595.
Definition PIVOT_OUTLIER_FRAC_exp : Z := -55.

(** Rounding of a positive integer to 53 significant bits, to nearest and
    ties to even: the result [(q, d)] stands for [q * 2^d]. *)
Definition round53 (p : Z) : Z * Z :=
  let bits := Z.log2 p + 1 in
  if bits <=? 53 then (p, 0)
  else
    let d := bits - 53 in
    let q := Z.shiftr p d in
    let r := Z.land p (Z.ones d) in
    let half := Z.shiftl 1 (d - 1) in
    if (half <? r) || ((r =? half) && Z.odd q) then (q + 1, d) else (q, d).

(** Line 120: [(int)(PIVOT_OUTLIER_FRAC * samples.size())], the binary64
    product of 0.15 and the size, truncated. *)
Definition outlierCut (n : Z) : Z :=
  if n <=? 0 then 0
  else
    let '(q, d) := round53 (n * PIVOT_OUTLIER_FRAC_mant) in
    let e := d + PIVOT_OUTLIER_FRAC_exp in
    if 0 <=? e then Z.shiftl q e else Z.shiftr q (- e).

(** Line 106: [std::max(2, (int)std::sqrt((double)size))].  The binary64
    square root of an [int], truncated, is the integer square root. *)
Definition pivotCountOf (size_ : Z) : Z := Z.max 2 (Z.sqrt size_).

(** Line 107: [std::max(pivotCount, (int)(pivotCount * PIVOT_SAMPLE_FACTOR))];
    the product with 2.0 is exact. *)
Definition pivotSampleCountOf (pivotCount : Z) : Z :=
  Z.max pivotCount (2 * pivotCount).

(** Lines 110-115: the state is the sample vector and the position in the
    stream of draws. *)
Definition gatherSamples (rand : nat -> nat) (k : nat) (arr : list Z)
  (start size_ pivotSampleCount : Z) : res (list Z * nat) :=
  forEach
    (fun _ '(samples, k) =>
       let rIndex := start + Z.rem (Z.of_nat (rand k)) size_ in
       let* x := get arr rIndex in
       Done (samples ++ [x], S k))
    (seqZ 0 pivotSampleCount) ([], k).

(** Lines 120-124: the two [erase] calls remove the first and the last [cut]
    samples. *)
Definition trimOutliers (samples : list Z) (pivotCount : Z) : list Z :=
  let cut := outlierCut (size samples) in
  if cut * 2 <? size samples - pivotCount then
    let samples := drop (Z.to_nat cut) samples in
    take (Z.to_nat (size samples - cut)) samples
  else samples.

(** Line 129. *)
Definition strideOf (samples : list Z) (pivotCount : Z) : Z :=
  Z.max 1 (Z.quot (size samples) pivotCount).

(** Lines 127-132. *)
Definition pickPivots (samples : list Z) (pivotCount : Z) : res (list Z) :=
  let step := strideOf samples pivotCount in
  forEach
    (fun i pivots => let* x := get samples (i * step) in Done (pivots ++ [x]))
    (seqZ 0 pivotCount) [].

(** Lines 106-134 together: the sorted pivots and the new position in the
    stream of draws. *)
Definition selectPivots (rand : nat -> nat) (k : nat) (arr : list Z)
  (start end_ : Z) : res (list Z * nat) :=
  let size_ := end_ - start + 1 in
  let pivotCount := pivotCountOf size_ in
  let pivotSampleCount := pivotSampleCountOf pivotCount in
  let* (samples, k) := gatherSamples rand k arr start size_ pivotSampleCount in
  let* samples := alpayTripleFixBidirectional samples 0 (size samples - 1) in
  let samples := trimOutliers samples pivotCount in
  let* pivots := pickPivots samples pivotCount in
  let* pivots := alpayTripleSortPivotArray pivots in
  Done (pivots, k).

(** Lines 140-143: [while (b < pivotCount && x >= pivots[b]) b++;].  Every
    turn increments [b], so [pivotCount] turns are the budget. *)
Fixpoint scanPivots (fuel : nat) (pivots : list Z) (pivotCount x b : Z)
  {struct fuel} : res Z :=
  if b <? pivotCount then
    let* p := get pivots b in
    if p <=? x then
      match fuel with
      | O => OutOfFuel
      | S fuel' => scanPivots fuel' pivots pivotCount x (b + 1)
      end
    else Done b
  else Done b.

(** Lines 137-145. *)
Definition distribute (arr : list Z) (start end_ : Z) (pivots : list Z)
  (pivotCount : Z) : res (list (list Z)) :=
  forEach
    (fun i buckets =>
       let* x := get arr i in
       let* b := scanPivots (Z.to_nat pivotCount) pivots pivotCount x 0 in
       let* bucket := get buckets b in
       set buckets b (bucket ++ [x]))
    (seqZ start (end_ - start + 1))
    (replicate (Z.to_nat (pivotCount + 1)) []).

(** Lines 148-152, for any function [sortRec] taking the place of the
    recursive call. *)
Fixpoint sortBuckets
  (sortRec : nat -> list Z -> Z -> Z -> res (list Z * nat)) (k : nat)
  (buckets : list (list Z)) : res (list (list Z) * nat) :=
  match buckets with
  | [] => Done ([], k)
  | bucket :: rest =>
      let* (bucket, k) :=
        if 1 <? size bucket then sortRec k bucket 0 (size bucket - 1)
        else Done (bucket, k) in
      let* (rest, k) := sortBuckets sortRec k rest in
      Done (bucket :: rest, k)
  end.

(** Lines 159-161. *)
Definition copyBack (arr : list Z) (start : Z) (mergedAll : list Z)
  : res (list Z) :=
  forEach
    (fun i arr => let* x := get mergedAll i in set arr (start + i) x)
    (seqZ 0 (size mergedAll)) arr.

(** [fuel] bounds the depth of the recursion; the base case does not recurse
    and needs none. *)
Fixpoint alpayFractalSortAdvanced (fuel : nat) (rand : nat -> nat) (k : nat)
  (arr : list Z) (start end_ : Z) {struct fuel} : res (list Z * nat) :=
  let size_ := end_ - start + 1 in
  if size_ <=? ALPAY_SMALL_THRESH then
    let* arr := alpayTripleFixBidirectional arr start end_ in Done (arr, k)
  else
    match fuel with
    | O => OutOfFuel
    | S fuel' =>
        let pivotCount := pivotCountOf size_ in
        let* (pivots, k) := selectPivots rand k arr start end_ in
        let* buckets := distribute arr start end_ pivots pivotCount in
        let* (buckets, k) :=
          sortBuckets (alpayFractalSortAdvanced fuel' rand) k buckets in
        let* mergedAll := alpayMultiBucketMerge buckets [] in
        let* arr := copyBack arr start mergedAll in
        Done (arr, k)
    end.

End Sort.

(** A heap to run the model with: an unordered list whose [pop] takes out the
    first item of least value. *)
Fixpoint extractMin (l : list HeapItem) : option (HeapItem * list HeapItem) :=
  match l with
  | [] => None
  | x :: t =>
      match extractMin t with
      | None => Some (x, [])
      | Some (m, t') =>
          if value m <? value x then Some (m, x :: t') else Some (x, t)
      end
  end.

(** The vector that [main] sorts (lines 170-178). *)
Definition demo : list Z :=
  [18; 2; 12; 5; 29; 17; 4; 0; 19; 23; 1; 9; 7; 6; 59; 559; 342; 678; 231;
   560; 248; 2485; 2495; 2495; 586; 35; 788; 8; 976; 0; 668; 866; 765; 57;
   43; 75; 8; 754; 74; 75; 965; 86; 75578; 98].

(** A fixed stream of draws to run the driver with. *)
Definition demoDraws (k : nat) : nat := (k * 37 + 13)%nat.

(** A sorted vector longer than the threshold, with duplicates. *)
Definition sorted14 : list Z := [1; 2; 2; 3; 5; 8; 8; 9; 10; 11; 12; 13; 14; 20].

(** * Vocabulary of the statements *)

(** No element of a bucket is greater than an element of a later bucket. *)
Definition bucketsAscend (buckets : list (list Z)) : Prop :=
  forall (i j : nat) (bi bj : list Z) (x y : Z),
    (i < j)%nat -> buckets !! i = Some bi -> buckets !! j = Some bj ->
    x ∈ bi -> y ∈ bj -> x <= y.

(** How often [v] occurs in [l]. *)
Definition occurrences (v : Z) (l : list Z) : Z :=
  size (List.filter (fun x => x =? v) l).

(** Every draw lands on a position of the range [mid] that holds a least
    element of the range. *)
Definition drawsHitMinimum (rand : nat -> nat) (mid : list Z) : Prop :=
  forall (k : nat) (x : Z),
    mid !! Z.to_nat (Z.rem (Z.of_nat (rand k)) (size mid)) = Some x ->
    Forall (Z.le x) mid.

(** What a sequence of compare-and-swap steps does to the range and to the
    [changed] flag. *)
Definition improves (c : bool) (m : list Z) (c' : bool) (m' : list Z) : Prop :=
  Permutation m m' /\
  (inversions m' <= inversions m)%nat /\
  (c = true -> c' = true) /\
  (c' = true -> c = false -> (inversions m' < inversions m)%nat) /\
  (c' = false -> m' = m).

(** The pair at positions [j], [j+1] of [m] is in order. *)
Definition orderedAt (m : list Z) (j : nat) : Prop :=
  forall x y, m !! j = Some x -> m !! S j = Some y -> x <= y.

(** What is left of an item's bucket, the item's own value included. *)
Definition itemTail (buckets : list (list Z)) (it : HeapItem) : list Z :=
  drop (Z.to_nat (iIndex it)) (default [] (buckets !! Z.to_nat (bIndex it))).

(** The elements the heap still stands for. *)
Fixpoint pending (buckets : list (list Z)) (items : list HeapItem) : list Z :=
  match items with
  | [] => []
  | it :: rest => itemTail buckets it ++ pending buckets rest
  end.

(** An item points at its own value. *)
Definition validItem (buckets : list (list Z)) (it : HeapItem) : Prop :=
  0 <= bIndex it /\ 0 <= iIndex it /\
  exists bucket,
    buckets !! Z.to_nat (bIndex it) = Some bucket /\
    bucket !! Z.to_nat (iIndex it) = Some (value it).

(** [f] holds at [n], [n + 1], ..., [n + count - 1]. *)
Fixpoint holdsFrom (f : Z -> bool) (count : nat) (n : Z) : bool :=
  match count with
  | O => true
  | S count' => f n && holdsFrom f count' (n + 1)
  end.

(** The number of pivots less than or equal to [x]. *)
Definition bucketOf (pivots : list Z) (x : Z) : Z :=
  size (List.filter (fun p => p <=? x) pivots).

(** What a run of the driver on the range [mid] may end in: it runs out of
    budget, or it returns the vector with the range sorted; it never reads or
    writes outside a vector. *)
Definition sortsOrRunsOut (pre mid post : list Z) (r : res (list Z * nat))
  : Prop :=
  match r with
  | OutOfFuel => True
  | Fault => False
  | Done (arr', _) =>
      exists mid', arr' = pre ++ mid' ++ post /\
                   Permutation mid mid' /\ Sorted Z.le mid'
  end.

(** * Properties *)

(** ** The list heap is a min-heap *)

Lemma extractMin_none l : extractMin l = None -> l = [].
Proof.
  destruct l as [|x t]; [done|]. simpl.
  destruct (extractMin t) as [[m t']|]; [|done].
  by destruct (value m <? value x).
Qed.

Lemma extractMin_some l x l' :
  extractMin l = Some (x, l') ->
  Permutation l (x :: l') /\ Forall (fun y => value x <= value y) l'.
Proof.
  revert x l'. induction l as [|a t IH]; intros x l'; [done|]. simpl.
  destruct (extractMin t) as [[m t']|] eqn:E.
  - destruct (IH _ _ eq_refl) as [Hp Hf].
    destruct (value m <? value a) eqn:Hlt; intros [= <- <-].
    + split.
      * rewrite Hp. apply perm_swap.
      * constructor; [lia|done].
    + split; [done|]. rewrite Hp. constructor; [lia|].
      eapply Forall_impl; [exact Hf|]. simpl. intros; lia.
  - apply extractMin_none in E as ->. intros [= <- <-]. by split.
Qed.

Lemma listHeap_push (x : HeapItem) (h : list HeapItem) :
  Permutation (h ++ [x]) (x :: h).
Proof. by rewrite Permutation_app_comm. Qed.

#[export] Instance ListHeap : MinHeap := {|
  heap := list HeapItem;
  heap_new := [];
  heap_push := fun x h => h ++ [x];
  heap_pop := extractMin;
  heap_items := fun h => h;
  heap_new_items := eq_refl;
  heap_push_items := listHeap_push;
  heap_pop_none := extractMin_none;
  heap_pop_some := extractMin_some
|}.

(** ** Vector accesses *)

Lemma size_app {A : Type} (l k : list A) : size (l ++ k) = size l + size k.
Proof. unfold size. rewrite length_app. lia. Qed.

Lemma size_cons {A : Type} (x : A) (l : list A) : size (x :: l) = 1 + size l.
Proof. unfold size. simpl. lia. Qed.

Lemma size_nonneg {A : Type} (l : list A) : 0 <= size l.
Proof. unfold size. lia. Qed.

Lemma get_lookup {A : Type} (v : list A) (i : Z) (x : A) :
  0 <= i -> v !! Z.to_nat i = Some x -> get v i = Done x.
Proof.
  intros Hi Hx. unfold get. rewrite Hx.
  by destruct (Z.leb_spec 0 i); [|lia].
Qed.


Lemma get_in_range {A : Type} (v : list A) (i : Z) :
  0 <= i < size v -> exists x, get v i = Done x /\ v !! Z.to_nat i = Some x.
Proof.
  intros Hi. unfold size in Hi.
  destruct (lookup_lt_is_Some_2 v (Z.to_nat i)) as [x Hx]; [lia|].
  exists x. split; [|done]. apply get_lookup; [lia|done].
Qed.

Lemma get_middle {A : Type} (l k : list A) (x : A) :
  get (l ++ x :: k) (size l) = Done x.
Proof.
  apply get_lookup; [apply size_nonneg|].
  unfold size. rewrite Nat2Z.id. by apply list_lookup_middle.
Qed.

Lemma set_middle {A : Type} (l k : list A) (x y : A) :
  set (l ++ x :: k) (size l) y = Done (l ++ y :: k).
Proof.
  unfold set. rewrite size_app, size_cons.
  pose proof (size_nonneg l). pose proof (size_nonneg k).
  destruct (Z.leb_spec 0 (size l)); [|lia].
  destruct (Z.ltb_spec (size l) (size l + (1 + size k))); [|lia].
  simpl. f_equal. unfold size. rewrite Nat2Z.id.
  rewrite insert_app_r_alt by lia. by rewrite Nat.sub_diag.
Qed.

Lemma get_middle_succ {A : Type} (l k : list A) (x y : A) :
  get (l ++ x :: y :: k) (size l + 1) = Done y.
Proof.
  replace (size l + 1) with (size (l ++ [x])) by (by rewrite size_app).
  replace (l ++ x :: y :: k) with ((l ++ [x]) ++ y :: k)
    by (by rewrite <- app_assoc).
  apply get_middle.
Qed.

Lemma set_middle_succ {A : Type} (l k : list A) (x y z : A) :
  set (l ++ x :: y :: k) (size l + 1) z = Done (l ++ x :: z :: k).
Proof.
  replace (size l + 1) with (size (l ++ [x])) by (by rewrite size_app).
  replace (l ++ x :: y :: k) with ((l ++ [x]) ++ y :: k)
    by (by rewrite <- app_assoc).
  rewrite set_middle. by rewrite <- app_assoc.
Qed.

Lemma swap_adjacent (l k : list Z) (a b : Z) :
  swap (l ++ a :: b :: k) (size l) (size l + 1) = Done (l ++ b :: a :: k).
Proof.
  unfold swap. rewrite get_middle, get_middle_succ. cbn [bind].
  rewrite set_middle. cbn [bind]. apply set_middle_succ.
Qed.

Lemma forEach_app {S : Type} (body : Z -> S -> res S) (i1 i2 : list Z) (s : S) :
  forEach body (i1 ++ i2) s = let* s' := forEach body i1 s in forEach body i2 s'.
Proof.
  revert s. induction i1 as [|i i1 IH]; intros s; simpl; [done|].
  destruct (body i s); simpl; auto.
Qed.

(** ** Inversions *)

Lemma inversions_swap (l k : list Z) (a b : Z) :
  b < a ->
  S (inversions (l ++ b :: a :: k)) = inversions (l ++ a :: b :: k).
Proof.
  intros Hlt. induction l as [|x l IH]; simpl.
  - destruct (Z.ltb_spec a b); [lia|].
    destruct (Z.ltb_spec b a); [|lia]. simpl. lia.
  - rewrite <- IH. rewrite !List.filter_app. simpl.
    destruct (b <? x), (a <? x); simpl; rewrite !length_app; simpl; lia.
Qed.

Lemma inversions_sorted_pair (l k : list Z) (a b : Z) :
  inversions (l ++ a :: b :: k) = O -> a <= b.
Proof.
  induction l as [|x l IH]; simpl.
  - destruct (Z.ltb_spec b a); simpl; lia.
  - intros H. apply IH. lia.
Qed.

(** ** The triple pass on the range [pre ++ mid ++ post] *)

Lemma improves_refl c m : improves c m c m.
Proof. unfold improves. repeat split; auto; congruence. Qed.

Lemma improves_trans c m c1 m1 c2 m2 :
  improves c m c1 m1 -> improves c1 m1 c2 m2 -> improves c m c2 m2.
Proof.
  intros (P1 & L1 & T1 & S1 & E1) (P2 & L2 & T2 & S2 & E2).
  unfold improves. split; [by etrans|]. split; [lia|].
  split; [auto|]. split.
  - intros H2 H0. destruct c1.
    + specialize (S1 eq_refl H0). lia.
    + specialize (S2 H2 eq_refl). lia.
  - intros H2. destruct c1.
    + specialize (T2 eq_refl). congruence.
    + rewrite (E2 H2). auto.
Qed.

Lemma split_pair (m : list Z) (j : nat) :
  (S j < length m)%nat ->
  exists m1 a b m2, m = m1 ++ a :: b :: m2 /\ length m1 = j.
Proof.
  intros Hj.
  destruct (lookup_lt_is_Some_2 m j) as [a Ha]; [lia|].
  destruct (lookup_lt_is_Some_2 m (S j)) as [b Hb]; [lia|].
  exists (take j m), a, b, (drop (S (S j)) m). split.
  - rewrite <- (drop_S m b (S j) Hb), <- (drop_S m a j Ha).
    by rewrite take_drop.
  - rewrite length_take. lia.
Qed.

Lemma fixPair_range (pre mid post : list Z) (c : bool) (i : Z) :
  size pre <= i -> i + 1 < size pre + size mid ->
  exists mid' c',
    fixPair i (pre ++ mid ++ post, c) = Done (pre ++ mid' ++ post, c') /\
    improves c mid c' mid' /\
    (c' = false -> orderedAt mid (Z.to_nat (i - size pre))).
Proof.
  intros Hlo Hhi.
  destruct (split_pair mid (Z.to_nat (i - size pre)))
    as (m1 & a & b & m2 & -> & Hlen); [unfold size in *; lia|].
  assert (Hi : i = size (pre ++ m1)) by (rewrite size_app; unfold size in *; lia).
  assert (Hctx : forall u v, pre ++ (m1 ++ u :: v :: m2) ++ post
                      = (pre ++ m1) ++ u :: v :: m2 ++ post).
  { intros. by rewrite <- !app_assoc. }
  unfold fixPair. rewrite Hctx, Hi.
  rewrite get_middle. cbn [bind].
  rewrite get_middle_succ. cbn [bind].
  destruct (Z.ltb_spec b a) as [Hlt|Hge].
  - rewrite swap_adjacent. cbn [bind]. exists (m1 ++ b :: a :: m2), true.
    rewrite Hctx. split; [done|]. split; [|done].
    pose proof (inversions_swap m1 m2 a b Hlt).
    unfold improves. split.
    + apply Permutation_app_head, perm_swap.
    + repeat split; try done; lia.
  - exists (m1 ++ a :: b :: m2), c. rewrite Hctx. split; [done|].
    split; [apply improves_refl|]. intros _ x y.
    replace (Z.to_nat (size (pre ++ m1) - size pre)) with (length m1)
      by (rewrite size_app; unfold size; lia).
    rewrite list_lookup_middle by done.
    replace (m1 ++ a :: b :: m2) with ((m1 ++ [a]) ++ b :: m2)
      by (by rewrite <- app_assoc).
    rewrite list_lookup_middle by (rewrite length_app; simpl; lia).
    intros [= <-] [= <-]. done.
Qed.

Lemma improves_size c m c' m' : improves c m c' m' -> size m' = size m.
Proof. intros (P & _). unfold size. by rewrite (Permutation_length P). Qed.

Lemma fixTriple_range (pre mid post : list Z) (c : bool) (i : Z) :
  size pre <= i -> i + 2 < size pre + size mid ->
  exists mid' c',
    fixTriple i (pre ++ mid ++ post, c) = Done (pre ++ mid' ++ post, c') /\
    improves c mid c' mid' /\
    (c' = false ->
     orderedAt mid (Z.to_nat (i - size pre)) /\
     orderedAt mid (S (Z.to_nat (i - size pre)))).
Proof.
  intros Hlo Hhi. unfold fixTriple.
  destruct (fixPair_range pre mid post c i) as (m1 & c1 & E1 & I1 & O1);
    [lia..|].
  rewrite E1. cbn [bind]. pose proof (improves_size _ _ _ _ I1) as Hs1.
  destruct (fixPair_range pre m1 post c1 (i + 1)) as (m2 & c2 & E2 & I2 & O2);
    [lia..|].
  rewrite E2. cbn [bind]. pose proof (improves_size _ _ _ _ I2) as Hs2.
  destruct (fixPair_range pre m2 post c2 i) as (m3 & c3 & E3 & I3 & O3);
    [lia..|].
  rewrite E3. exists m3, c3. split; [done|].
  split; [eauto using improves_trans|].
  intros ->.
  destruct I3 as (_ & _ & T3 & _ & _), I2 as (_ & _ & T2 & _ & _).
  destruct c2; [by specialize (T3 eq_refl)|].
  destruct c1; [by specialize (T2 eq_refl)|].
  destruct I1 as (_ & _ & _ & _ & Eq1). rewrite (Eq1 eq_refl) in O2.
  split; [auto|].
  replace (S (Z.to_nat (i - size pre))) with (Z.to_nat (i + 1 - size pre))
    by lia.
  auto.
Qed.

Lemma fixPasses_range (pre post : list Z) (idx : list Z) :
  forall (mid : list Z) (c : bool),
    Forall (fun i => size pre <= i /\ i + 2 < size pre + size mid) idx ->
    exists mid' c',
      forEach fixTriple idx (pre ++ mid ++ post, c)
      = Done (pre ++ mid' ++ post, c') /\
      improves c mid c' mid' /\
      (c' = false ->
       Forall (fun i => orderedAt mid (Z.to_nat (i - size pre)) /\
                        orderedAt mid (S (Z.to_nat (i - size pre)))) idx).
Proof.
  induction idx as [|i idx IH]; intros mid c Hidx.
  - exists mid, c. simpl. split; [done|]. split; [apply improves_refl|].
    intros _. constructor.
  - inversion Hidx as [|? ? [Hlo Hhi] Hrest]; subst.
    destruct (fixTriple_range pre mid post c i Hlo Hhi)
      as (m1 & c1 & E1 & I1 & O1).
    simpl. rewrite E1. cbn [bind].
    pose proof (improves_size _ _ _ _ I1) as Hs1.
    destruct (IH m1 c1) as (m2 & c2 & E2 & I2 & O2).
    { eapply Forall_impl; [exact Hrest|]. simpl. intros; lia. }
    exists m2, c2. split; [done|]. split; [eauto using improves_trans|].
    intros ->. destruct I2 as (_ & _ & T2 & _ & _).
    destruct c1; [by specialize (T2 eq_refl)|].
    destruct I1 as (_ & _ & _ & _ & Eq1). rewrite (Eq1 eq_refl) in O2.
    constructor; auto.
Qed.

Lemma orderedAt_Sorted (m : list Z) :
  (forall j, (S j < length m)%nat -> orderedAt m j) -> Sorted Z.le m.
Proof.
  induction m as [|x t IH]; intros H; [constructor|].
  constructor.
  - apply IH. intros j Hj a b Ha Hb.
    apply (H (S j)); [simpl; lia|done..].
  - destruct t as [|y t']; constructor.
    apply (H O); [simpl; lia|done..].
Qed.

Lemma fixCycle_range (pre mid post : list Z) :
  exists mid' c',
    fixCycle (pre ++ mid ++ post) (size pre) (size pre + size mid - 1)
    = Done (pre ++ mid' ++ post, c') /\
    improves false mid c' mid' /\
    (c' = false -> 3 <= size mid -> Sorted Z.le mid).
Proof.
  unfold fixCycle, forwardIdx, backwardIdx.
  set (idx := seqZ (size pre) (size pre + size mid - 1 - 1 - size pre)).
  assert (Hin : forall m : list Z, size m = size mid ->
            Forall (fun i => size pre <= i /\ i + 2 < size pre + size m) idx).
  { intros m Hm. apply Forall_forall. intros i Hi.
    apply elem_of_seqZ in Hi. lia. }
  destruct (fixPasses_range pre post idx mid false (Hin mid eq_refl))
    as (m1 & c1 & E1 & I1 & O1).
  rewrite E1. cbn [bind].
  destruct (fixPasses_range pre post (reverse idx) m1 c1)
    as (m2 & c2 & E2 & I2 & O2).
  { apply Forall_reverse, Hin. eauto using improves_size. }
  rewrite E2. exists m2, c2. split; [done|].
  split; [eauto using improves_trans|].
  intros -> H3. destruct I2 as (_ & _ & T2 & _ & _).
  destruct c1; [by specialize (T2 eq_refl)|].
  specialize (O1 eq_refl). rewrite Forall_forall in O1.
  apply orderedAt_Sorted. intros j Hj. unfold size in *.
  destruct (decide (S (S j) < length mid)%nat) as [Hlt|Hge].
  - destruct (O1 (Z.of_nat (length pre) + Z.of_nat j)) as [H _].
    { apply elem_of_seqZ. lia. }
    by replace (Z.to_nat (Z.of_nat (length pre) + Z.of_nat j
                          - Z.of_nat (length pre))) with j in H by lia.
  - destruct (O1 (Z.of_nat (length pre) + Z.of_nat j - 1)) as [_ H].
    { apply elem_of_seqZ. lia. }
    by replace (S (Z.to_nat (Z.of_nat (length pre) + Z.of_nat j - 1
                             - Z.of_nat (length pre)))) with j in H by lia.
Qed.

Lemma fixLoop_range (pre post : list Z) (fuel : nat) :
  forall mid : list Z,
    (inversions mid < fuel)%nat ->
    exists mid',
      fixLoop fuel (pre ++ mid ++ post) (size pre) (size pre + size mid - 1)
      = Done (pre ++ mid' ++ post) /\
      Permutation mid mid' /\ (3 <= size mid -> Sorted Z.le mid').
Proof.
  induction fuel as [|fuel IH]; intros mid Hinv; [lia|].
  destruct (fixCycle_range pre mid post) as (m1 & c1 & E1 & I1 & O1).
  simpl. rewrite E1. cbn [bind].
  pose proof (improves_size _ _ _ _ I1) as Hs1.
  destruct I1 as (P1 & L1 & _ & S1 & Eq1). destruct c1.
  - specialize (S1 eq_refl eq_refl).
    destruct (IH m1) as (m2 & E2 & P2 & S2); [lia..|].
    rewrite Hs1 in E2. exists m2. split; [done|]. split; [by etrans|].
    intros. apply S2. lia.
  - exists m1. split; [done|]. split; [done|].
    rewrite (Eq1 eq_refl). auto.
Qed.

Lemma subrange_middle (pre mid post : list Z) :
  subrange (pre ++ mid ++ post) (size pre) (size pre + size mid - 1) = mid.
Proof.
  unfold subrange, size. rewrite Nat2Z.id, drop_app_length.
  apply take_app_length'. lia.
Qed.

(** The pass sorts the range and touches nothing else. *)
Lemma alpayTripleFix_range (pre mid post : list Z) :
  exists mid',
    alpayTripleFixBidirectional (pre ++ mid ++ post)
      (size pre) (size pre + size mid - 1)
    = Done (pre ++ mid' ++ post) /\
    Permutation mid mid' /\ Sorted Z.le mid'.
Proof.
  unfold alpayTripleFixBidirectional.
  destruct (Z.leb_spec (size pre + size mid - 1) (size pre)) as [Hle|Hgt].
  - exists mid. split; [done|]. split; [done|].
    destruct mid as [|x [|y t]]; [repeat constructor..|].
    rewrite !size_cons in Hle. pose proof (size_nonneg t). lia.
  - destruct (Z.eqb_spec (size pre + size mid - 1 - size pre) 1) as [H2|Hn2].
    + destruct mid as [|x [|y [|z t]]]; rewrite ?size_cons in *;
        try (pose proof (size_nonneg t)); try (unfold size in *; simpl in *; lia).
      simpl app. rewrite get_middle, get_middle_succ. cbn [bind].
      destruct (Z.ltb_spec y x).
      * rewrite swap_adjacent. exists [y; x]. split; [done|].
        split; [apply perm_swap|]. repeat constructor. lia.
      * exists [x; y]. split; [done|]. split; [done|]. by repeat constructor.
    + unfold fixBudget. rewrite subrange_middle.
      destruct (fixLoop_range pre post (S (inversions mid)) mid)
        as (mid' & E & P & S); [lia|].
      exists mid'. split; [done|]. split; [done|]. apply S. lia.
Qed.

Lemma range_decompose (arr : list Z) (start end_ : Z) :
  0 <= start <= end_ + 1 -> end_ < size arr ->
  exists pre mid post,
    arr = pre ++ mid ++ post /\ size pre = start /\
    size pre + size mid - 1 = end_.
Proof.
  intros Hs He. unfold size in *.
  exists (take (Z.to_nat start) arr), (subrange arr start end_),
    (drop (Z.to_nat (end_ + 1)) arr).
  unfold subrange. split; [|rewrite !length_take, length_drop; lia].
  rewrite <- (take_drop (Z.to_nat start) arr) at 1. f_equal.
  rewrite <- (take_drop (Z.to_nat (end_ - start + 1))
                (drop (Z.to_nat start) arr)) at 1.
  f_equal. rewrite drop_drop. f_equal. lia.
Qed.

Lemma take_pre (pre rest : list Z) : take (Z.to_nat (size pre)) (pre ++ rest) = pre.
Proof. unfold size. rewrite Nat2Z.id. apply take_app_length. Qed.

Lemma drop_post (pre mid post : list Z) (n : Z) :
  n = size pre + size mid ->
  drop (Z.to_nat n) (pre ++ mid ++ post) = post.
Proof.
  intros ->. rewrite app_assoc. apply drop_app_length'.
  rewrite length_app. unfold size. lia.
Qed.

Lemma Sorted_short (l : list Z) : (length l <= 1)%nat -> Sorted Z.le l.
Proof. destruct l as [|x [|y t]]; simpl; [repeat constructor..|lia]. Qed.

Lemma alpayTripleFixBidirectional_spec (arr : list Z) (start end_ : Z) :
  0 <= start -> end_ < size arr ->
  exists arr',
    alpayTripleFixBidirectional arr start end_ = Done arr' /\
    length arr' = length arr /\
    take (Z.to_nat start) arr' = take (Z.to_nat start) arr /\
    drop (Z.to_nat (end_ + 1)) arr' = drop (Z.to_nat (end_ + 1)) arr /\
    Permutation (subrange arr start end_) (subrange arr' start end_) /\
    Sorted Z.le (subrange arr' start end_) /\
    (end_ <= start -> arr' = arr).
Proof.
  intros Hs He. destruct (Z.le_gt_cases end_ start) as [Hle|Hgt].
  - exists arr. unfold alpayTripleFixBidirectional.
    destruct (Z.leb_spec end_ start); [|lia].
    repeat split; try done. apply Sorted_short. unfold subrange.
    rewrite length_take. lia.
  - destruct (range_decompose arr start end_) as (pre & mid & post & -> & <- & <-);
      [lia..|].
    destruct (alpayTripleFix_range pre mid post) as (mid' & E & P & S).
    exists (pre ++ mid' ++ post). rewrite E.
    assert (Hsz : size mid' = size mid)
      by (unfold size; by rewrite (Permutation_length P)).
    split; [done|]. split.
    { rewrite !length_app. by rewrite (Permutation_length P). }
    rewrite !take_pre. rewrite !(drop_post pre _ post) by lia.
    rewrite subrange_middle. rewrite <- Hsz. rewrite subrange_middle.
    repeat split; try done. lia.
Qed.

Lemma alpayTripleFixBidirectional_total (arr : list Z) (start end_ : Z) :
  0 <= start -> end_ < size arr ->
  exists out, alpayTripleFixBidirectional arr start end_ = Done out.
Proof.
  intros Hs He.
  destruct (alpayTripleFixBidirectional_spec arr start end_ Hs He)
    as (out & E & _). eauto.
Qed.

(** C5: on an in-bounds range the pass returns; the range is then a
    non-decreasing permutation of what it held, everything outside the range
    is as before, and a range of at most one element ([start >= end]) leaves
    the whole vector unchanged. *)
Theorem alpayTripleFixBidirectional_sorts_range (arr : list Z) (start end_ : Z) :
  0 <= start -> end_ < size arr ->
  exists arr',
    alpayTripleFixBidirectional arr start end_ = Done arr' /\
    length arr' = length arr /\
    take (Z.to_nat start) arr' = take (Z.to_nat start) arr /\
    drop (Z.to_nat (end_ + 1)) arr' = drop (Z.to_nat (end_ + 1)) arr /\
    Permutation (subrange arr start end_) (subrange arr' start end_) /\
    Sorted Z.le (subrange arr' start end_) /\
    (end_ <= start -> arr' = arr).
Proof. apply alpayTripleFixBidirectional_spec. Qed.

Lemma alpayTripleFixBidirectional_sorts_range_witness :
  exists arr',
    alpayTripleFixBidirectional [9; 4; 3; 2; 1; 0] 1 4 = Done arr' /\
    length arr' = length [9; 4; 3; 2; 1; 0] /\
    take (Z.to_nat 1) arr' = take (Z.to_nat 1) [9; 4; 3; 2; 1; 0] /\
    drop (Z.to_nat (4 + 1)) arr' = drop (Z.to_nat (4 + 1)) [9; 4; 3; 2; 1; 0] /\
    Permutation (subrange [9; 4; 3; 2; 1; 0] 1 4) (subrange arr' 1 4) /\
    Sorted Z.le (subrange arr' 1 4) /\
    (4 <= 1 -> arr' = [9; 4; 3; 2; 1; 0]).
Proof.
  apply (alpayTripleFixBidirectional_sorts_range [9; 4; 3; 2; 1; 0] 1 4).
  - lia.
  - vm_compute. reflexivity.
Defined.

Lemma fixCycle_empty_range (arr : list Z) (start end_ : Z) :
  end_ < start + 2 -> fixCycle arr start end_ = Done (arr, false).
Proof.
  intros H. unfold fixCycle, forwardIdx, backwardIdx.
  by rewrite seqZ_nil by lia.
Qed.

(** C6: on an in-bounds range one turn of the loop returns, and either it
    swapped something and the range has strictly fewer inversions, or it
    swapped nothing, left the vector as it was, and the loop exits; the loop
    therefore returns within (inversions + 1) turns, and the function
    returns. *)
Theorem fixLoop_terminates (arr : list Z) (start end_ : Z) :
  0 <= start -> end_ < size arr ->
  (exists arr' changed,
     fixCycle arr start end_ = Done (arr', changed) /\
     (changed = true ->
      (inversions (subrange arr' start end_)
       < inversions (subrange arr start end_))%nat) /\
     (changed = false ->
      arr' = arr /\ forall fuel, fixLoop (S fuel) arr start end_ = Done arr)) /\
  (forall fuel, (inversions (subrange arr start end_) < fuel)%nat ->
     exists out, fixLoop fuel arr start end_ = Done out) /\
  (exists out, alpayTripleFixBidirectional arr start end_ = Done out).
Proof.
  intros Hs He. split; [|split].
  - destruct (Z.lt_ge_cases end_ (start + 2)) as [Hsmall|Hbig].
    + exists arr, false. rewrite fixCycle_empty_range by done.
      split; [done|]. split; [done|]. intros _. split; [done|].
      intros fuel. simpl. by rewrite fixCycle_empty_range.
    + destruct (range_decompose arr start end_)
        as (pre & mid & post & -> & <- & <-); [lia..|].
      destruct (fixCycle_range pre mid post) as (m1 & c1 & E1 & I1 & _).
      exists (pre ++ m1 ++ post), c1. split; [done|].
      pose proof (improves_size _ _ _ _ I1) as Hs1.
      destruct I1 as (_ & _ & _ & S1 & Eq1).
      rewrite subrange_middle. rewrite <- Hs1. rewrite subrange_middle.
      split; [auto|]. intros ->. rewrite (Eq1 eq_refl). split; [done|].
      intros fuel. cbn [fixLoop]. rewrite E1. cbn [bind].
      by rewrite (Eq1 eq_refl).
  - intros fuel Hfuel.
    destruct (Z.lt_ge_cases end_ (start + 2)) as [Hsmall|Hbig].
    + destruct fuel as [|fuel]; [lia|]. exists arr. simpl.
      by rewrite fixCycle_empty_range.
    + destruct (range_decompose arr start end_)
        as (pre & mid & post & -> & <- & <-); [lia..|].
      rewrite subrange_middle in Hfuel.
      destruct (fixLoop_range pre post fuel mid Hfuel) as (mid' & E & _).
      eauto.
  - destruct (alpayTripleFixBidirectional_total arr start end_ Hs He) as [out E].
    eauto.
Qed.

Lemma fixLoop_terminates_witness :
  (exists arr' changed,
     fixCycle [3; 1; 2] 0 2 = Done (arr', changed) /\
     (changed = true ->
      Nat.lt (inversions (subrange arr' 0 2))
        (inversions (subrange [3; 1; 2] 0 2))) /\
     (changed = false ->
      arr' = [3; 1; 2] /\
      forall fuel, fixLoop (S fuel) [3; 1; 2] 0 2 = Done [3; 1; 2])) /\
  (forall fuel, Nat.lt (inversions (subrange [3; 1; 2] 0 2)) fuel ->
     exists out, fixLoop fuel [3; 1; 2] 0 2 = Done out) /\
  (exists out, alpayTripleFixBidirectional [3; 1; 2] 0 2 = Done out).
Proof.
  apply (fixLoop_terminates [3; 1; 2] 0 2).
  - lia.
  - vm_compute. reflexivity.
Defined.

(** ** The k-way merge *)

Section MergeProperties.
Context {MH : MinHeap}.
Variable buckets : list (list Z).
Hypothesis buckets_sorted : Forall (Sorted Z.le) buckets.

Lemma pending_Permutation (l l' : list HeapItem) :
  Permutation l l' -> Permutation (pending buckets l) (pending buckets l').
Proof using Type.
  induction 1; simpl; [done| |..].
  - by apply Permutation_app_head.
  - by rewrite !app_assoc, (Permutation_app_comm (itemTail buckets y)).
  - by etrans.
Qed.

Lemma totalSize_from (l : list (list Z)) (acc : Z) :
  fold_left (fun total b => total + size b) l acc = acc + size (concat l).
Proof using Type.
  revert acc. induction l as [|b l IH]; intros acc; simpl.
  - unfold size. simpl. lia.
  - rewrite IH, size_app. lia.
Qed.

Lemma totalSize_concat (l : list (list Z)) : totalSize l = size (concat l).
Proof using Type. unfold totalSize. by rewrite totalSize_from. Qed.

Lemma itemTail_valid (it : HeapItem) :
  validItem buckets it ->
  exists bucket,
    buckets !! Z.to_nat (bIndex it) = Some bucket /\
    itemTail buckets it = value it :: drop (S (Z.to_nat (iIndex it))) bucket /\
    Forall (fun y => value it <= y) (drop (S (Z.to_nat (iIndex it))) bucket).
Proof using buckets_sorted.
  intros (Hb & Hi & bucket & Hbk & Hv). exists bucket. split; [done|].
  unfold itemTail. rewrite Hbk. simpl.
  rewrite (drop_S _ _ _ Hv). split; [done|].
  assert (Hs : StronglySorted Z.le bucket).
  { apply Sorted_StronglySorted; [apply _|].
    eapply Forall_lookup_1; [exact buckets_sorted|exact Hbk]. }
  rewrite <- (take_drop (Z.to_nat (iIndex it)) bucket) in Hs.
  apply StronglySorted_app_1_r in Hs. rewrite (drop_S _ _ _ Hv) in Hs.
  by inversion Hs.
Qed.

Lemma pending_lower (v : Z) (items : list HeapItem) :
  Forall (validItem buckets) items ->
  Forall (fun it => v <= value it) items ->
  Forall (fun y => v <= y) (pending buckets items).
Proof using buckets_sorted.
  induction 1 as [|it items Hit _ IH]; intros Hle; [constructor|].
  inversion Hle as [|? ? Hv Hrest]; subst. simpl.
  destruct (itemTail_valid it Hit) as (bucket & _ & -> & Htail).
  apply Forall_app. split; [|auto].
  constructor; [done|]. eapply Forall_impl; [exact Htail|].
  simpl. intros; lia.
Qed.

Lemma StronglySorted_snoc (l : list Z) (x : Z) :
  StronglySorted Z.le l -> Forall (fun d => d <= x) l ->
  StronglySorted Z.le (l ++ [x]).
Proof using Type.
  intros Hs Hx. apply StronglySorted_app_2; [|done|repeat constructor].
  intros a b Ha Hb. apply list_elem_of_singleton in Hb as ->.
  by eapply Forall_forall in Hx.
Qed.

Lemma mergeLoop_spec (fuel : nat) :
  forall (h : heap) (dest : list Z),
    Forall (validItem buckets) (heap_items h) ->
    (length (pending buckets (heap_items h)) <= fuel)%nat ->
    StronglySorted Z.le dest ->
    Forall (fun d => Forall (fun p => d <= p) (pending buckets (heap_items h))) dest ->
    exists out,
      mergeLoop fuel buckets h dest = Done out /\
      Permutation out (dest ++ pending buckets (heap_items h)) /\
      StronglySorted Z.le out.
Proof using buckets_sorted.
  induction fuel as [|fuel IH]; intros h dest Hvalid Hlen Hsorted Hle.
  - simpl. destruct (heap_pop h) as [[top h']|] eqn:Hpop.
    + destruct (heap_pop_some _ _ _ Hpop) as [Hperm _].
      rewrite Hperm in Hvalid. inversion Hvalid as [|? ? Htop _]; subst.
      destruct (itemTail_valid top Htop) as (bucket & _ & E & _).
      rewrite (pending_Permutation _ _ Hperm) in Hlen. simpl in Hlen.
      rewrite E in Hlen. simpl in Hlen. lia.
    + rewrite (heap_pop_none _ Hpop). simpl. rewrite app_nil_r. eauto.
  - simpl. destruct (heap_pop h) as [[top h']|] eqn:Hpop.
    + destruct (heap_pop_some _ _ _ Hpop) as [Hperm Hmin].
      pose proof (pending_Permutation _ _ Hperm) as Hpend. simpl in Hpend.
      rewrite Hperm in Hvalid. inversion Hvalid as [|? ? Htop Hvalid']; subst.
      destruct (itemTail_valid top Htop) as (bucket & Hbk & E & Htail).
      rewrite E in Hpend.
      destruct Htop as (Hb & Hi & _).
      rewrite (get_lookup buckets (bIndex top) bucket Hb Hbk). cbn [bind].
      set (rest := drop (S (Z.to_nat (iIndex top))) bucket) in *.
      assert (Hnew : exists h'',
        Forall (validItem buckets) (heap_items h'') /\
        Permutation (pending buckets (heap_items h'')) (rest ++ pending buckets (heap_items h')) /\
        (if iIndex top + 1 <? size bucket
         then let* v := get bucket (iIndex top + 1) in
              mergeLoop fuel buckets
                (heap_push (mkItem v (bIndex top) (iIndex top + 1)) h')
                (dest ++ [value top])
         else mergeLoop fuel buckets h' (dest ++ [value top]))
        = mergeLoop fuel buckets h'' (dest ++ [value top])).
      { destruct (Z.ltb_spec (iIndex top + 1) (size bucket)) as [Hlt|Hge].
        - destruct (get_in_range bucket (iIndex top + 1)) as (v & Hget & Hv);
            [lia|].
          rewrite Hget. cbn [bind].
          exists (heap_push (mkItem v (bIndex top) (iIndex top + 1)) h').
          split; [|split; [|done]].
          + rewrite heap_push_items. constructor; [|done].
            unfold validItem. simpl. repeat split; [lia..|]. eauto.
          + rewrite (pending_Permutation _ _ (heap_push_items _ _)). simpl.
            apply Permutation_app_tail. unfold itemTail. simpl.
            rewrite Hbk. simpl. unfold rest.
            by replace (Z.to_nat (iIndex top + 1))
              with (S (Z.to_nat (iIndex top))) by lia.
        - exists h'. split; [done|]. split; [|done].
          unfold rest. rewrite drop_ge by (unfold size in Hge; lia). done. }
      destruct Hnew as (h'' & Hvalid'' & Hpend'' & ->).
      assert (Hall : Forall (fun p => value top <= p) (pending buckets (heap_items h''))).
      { rewrite Hpend''. apply Forall_app. split; [done|].
        by apply pending_lower. }
      destruct (IH h'' (dest ++ [value top])) as (out & E' & P' & S'); auto.
      * rewrite Hpend''. rewrite Hpend in Hlen. simpl in Hlen. lia.
      * apply StronglySorted_snoc; [done|].
        eapply Forall_impl; [exact Hle|]. simpl. intros d Hd.
        rewrite Hpend in Hd. by inversion Hd.
      * apply Forall_app. split.
        -- eapply Forall_impl; [exact Hle|]. simpl. intros d Hd.
           rewrite Hpend'', Hpend in *. by inversion Hd.
        -- by constructor.
      * exists out. split; [done|]. split; [|done].
        rewrite P', Hpend'', Hpend. rewrite <- app_assoc. done.
    + rewrite (heap_pop_none _ Hpop). simpl. rewrite app_nil_r. eauto.
Qed.

Lemma heapInit_from (todo : list (list Z)) :
  forall (done : list (list Z)) (h : heap),
    buckets = done ++ todo ->
    Forall (validItem buckets) (heap_items h) ->
    exists h',
      forEach
        (fun b h =>
           let* bucket := get buckets b in
           if size bucket =? 0 then Done h
           else let* v := get bucket 0 in Done (heap_push (mkItem v b 0) h))
        (seqZ (size done) (size todo)) h = Done h' /\
      Forall (validItem buckets) (heap_items h') /\
      Permutation (pending buckets (heap_items h'))
        (pending buckets (heap_items h) ++ concat todo).
Proof using Type.
  induction todo as [|bucket todo IH]; intros done h Hb Hvalid.
  - exists h. simpl. rewrite app_nil_r. by repeat split.
  - assert (Hlook : buckets !! Z.to_nat (size done) = Some bucket).
    { unfold size. rewrite Nat2Z.id, Hb. by apply list_lookup_middle. }
    pose proof (size_nonneg done) as Hd. pose proof (size_nonneg todo) as Ht.
    rewrite seqZ_cons by (rewrite size_cons; lia).
    cbn [forEach]. rewrite (get_lookup _ _ _ Hd Hlook). cbn [bind].
    replace (Z.succ (size done)) with (size (done ++ [bucket]))
      by (rewrite size_app, size_cons; unfold size; simpl; lia).
    replace (Z.pred (size (bucket :: todo))) with (size todo)
      by (rewrite size_cons; lia).
    assert (Hb' : buckets = (done ++ [bucket]) ++ todo)
      by (by rewrite <- app_assoc).
    destruct bucket as [|v t].
    + simpl. destruct (IH _ h Hb' Hvalid) as (h' & E & V & P). eauto.
    + replace (size (v :: t) =? 0) with false
        by (rewrite size_cons; pose proof (size_nonneg t);
            symmetry; apply Z.eqb_neq; lia).
      change (get (v :: t) 0) with (Done v). cbn [bind].
      destruct (IH (done ++ [v :: t])
                  (heap_push (mkItem v (size done) 0) h) Hb')
        as (h' & E & V & P).
      { rewrite heap_push_items. constructor; [|done].
        unfold validItem. simpl. repeat split; [lia..|]. eauto. }
      exists h'. split; [done|]. split; [done|].
      rewrite P, (pending_Permutation _ _ (heap_push_items _ _)).
      cbn [pending].
      assert (Htail : itemTail buckets (mkItem v (size done) 0) = v :: t)
        by (unfold itemTail; simpl; by rewrite Hlook).
      rewrite Htail. generalize (v :: t) as a. intros a.
      change (concat (a :: todo)) with (a ++ concat todo).
      by rewrite (Permutation_app_comm a), <- app_assoc.
Qed.

Lemma alpayMultiBucketMerge_spec (dest : list Z) :
  exists out,
    alpayMultiBucketMerge buckets dest = Done out /\
    Permutation out (concat buckets) /\
    Sorted Z.le out.
Proof using buckets_sorted.
  unfold alpayMultiBucketMerge, heapInit.
  destruct (heapInit_from buckets [] heap_new eq_refl) as (h & E & V & P).
  { rewrite heap_new_items. constructor. }
  change (size (@nil (list Z))) with 0 in E. rewrite E. cbn [bind].
  rewrite heap_new_items in P. simpl in P.
  destruct (mergeLoop_spec (Z.to_nat (totalSize buckets)) h []) as (out & E' & P' & S').
  - done.
  - rewrite totalSize_concat, P. unfold size. lia.
  - constructor.
  - constructor.
  - exists out. split; [done|]. split.
    + by rewrite P', P.
    + by apply StronglySorted_Sorted.
Qed.

End MergeProperties.

(** C4: whatever heap implements the priority queue, the merge of buckets
    that are each sorted ascending returns; its output has as many elements
    as the buckets together, is a permutation of their concatenation, and is
    non-decreasing.  Zero buckets, empty buckets and duplicates are
    included. *)
Theorem alpayMultiBucketMerge_sorted_union {MH : MinHeap}
  (buckets : list (list Z)) (dest : list Z) :
  Forall (Sorted Z.le) buckets ->
  exists out,
    alpayMultiBucketMerge buckets dest = Done out /\
    length out = sum_list (length <$> buckets) /\
    Permutation out (concat buckets) /\
    Sorted Z.le out.
Proof.
  intros Hsorted.
  destruct (alpayMultiBucketMerge_spec buckets Hsorted dest) as (out & E & P & S).
  exists out. split; [done|]. split; [|done].
  by rewrite (Permutation_length P), length_concat.
Qed.

Lemma alpayMultiBucketMerge_sorted_union_witness :
  exists out,
    alpayMultiBucketMerge [[1; 4; 4; 7]; [2; 3]; []; [0; 4; 9]] [42] = Done out /\
    length out = sum_list (length <$> [[1; 4; 4; 7]; [2; 3]; []; [0; 4; 9]]) /\
    Permutation out (concat [[1; 4; 4; 7]; [2; 3]; []; [0; 4; 9]]) /\
    Sorted Z.le out.
Proof.
  apply (alpayMultiBucketMerge_sorted_union
           [[1; 4; 4; 7]; [2; 3]; []; [0; 4; 9]] [42]).
  repeat constructor; lia.
Defined.

(** C10: the final destination does not depend on what the destination held
    before the call: it is cleared before the first element is appended. *)
Theorem alpayMultiBucketMerge_ignores_dest {MH : MinHeap}
  (buckets : list (list Z)) (dest1 dest2 : list Z) :
  alpayMultiBucketMerge buckets dest1 = alpayMultiBucketMerge buckets dest2.
Proof. reflexivity. Qed.

Example merge_scenario4 :
  alpayMultiBucketMerge [[1; 4; 7]; [2; 3]; []; [0; 9]] [42]
  = Done [0; 1; 2; 3; 4; 7; 9].
Proof. vm_compute. reflexivity. Qed.

(** ** Partitioning *)

Lemma filter_le_above (x p : Z) (l : list Z) :
  x < p -> Forall (Z.le p) l -> List.filter (fun q => q <=? x) l = [].
Proof.
  intros Hx. induction 1 as [|q l Hq _ IH]; simpl; [done|].
  destruct (Z.leb_spec q x); [lia|done].
Qed.

Lemma scanPivots_sorted (pivots : list Z) (x : Z) (todo : list Z) :
  forall (done : list Z) (fuel : nat),
    pivots = done ++ todo ->
    StronglySorted Z.le todo ->
    (length todo <= fuel)%nat ->
    scanPivots fuel pivots (size pivots) x (size done)
    = Done (size done + size (List.filter (fun p => p <=? x) todo)).
Proof.
  induction todo as [|p todo IH]; intros done fuel -> Hs Hfuel.
  - rewrite app_nil_r.
    destruct fuel; simpl; rewrite Z.ltb_irrefl; f_equal;
      unfold size; simpl; lia.
  - assert (Hlt : (size done <? size (done ++ p :: todo)) = true).
    { apply Z.ltb_lt. rewrite size_app, size_cons.
      pose proof (size_nonneg todo). lia. }
    apply StronglySorted_cons in Hs as [Hall Hs].
    destruct fuel as [|fuel]; [simpl in Hfuel; lia|].
    cbn [scanPivots]. rewrite Hlt, get_middle. cbn [bind]. simpl List.filter.
    destruct (Z.leb_spec p x) as [Hle|Hgt].
    + replace (size done + 1) with (size (done ++ [p]))
        by (by rewrite size_app).
      rewrite (IH (done ++ [p]) fuel);
        [|by rewrite <- app_assoc|done|simpl in Hfuel; lia].
      f_equal. rewrite size_app, !size_cons. unfold size. simpl. lia.
    + rewrite (filter_le_above x p) by done. f_equal. unfold size. simpl. lia.
Qed.

Lemma scanPivots_bucketOf (pivots : list Z) (x : Z) :
  Sorted Z.le pivots ->
  scanPivots (Z.to_nat (size pivots)) pivots (size pivots) x 0
  = Done (bucketOf pivots x).
Proof.
  intros Hs. apply (Sorted_StronglySorted Z.le) in Hs.
  rewrite (scanPivots_sorted pivots x pivots [] _ eq_refl Hs)
    by (unfold size; lia).
  done.
Qed.

Lemma bucketOf_range (pivots : list Z) (x : Z) :
  0 <= bucketOf pivots x <= size pivots.
Proof.
  unfold bucketOf, size. pose proof (List.filter_length_le (fun p => p <=? x) pivots).
  lia.
Qed.

(** With ascending pivots, exactly the pivots in front of position
    [bucketOf pivots x] are less than or equal to [x]. *)
Lemma bucketOf_interval (pivots : list Z) (x : Z) :
  Sorted Z.le pivots ->
  forall (j : nat) (p : Z),
    pivots !! j = Some p -> (p <= x <-> Z.of_nat j < bucketOf pivots x).
Proof.
  intros Hs. apply (Sorted_StronglySorted Z.le) in Hs. unfold bucketOf.
  induction Hs as [|q l Hs IH Hall]; intros j p Hj; [done|].
  simpl. destruct (Z.leb_spec q x) as [Hle|Hgt].
  - rewrite size_cons. destruct j as [|j]; simpl in Hj.
    + injection Hj as <-. pose proof (size_nonneg (List.filter (fun p => p <=? x) l)).
      lia.
    + rewrite (IH j p Hj). lia.
  - rewrite (filter_le_above x q) in * by done.
    assert (q <= p).
    { destruct j as [|j]; simpl in Hj; [injection Hj as <-; lia|].
      eapply Forall_lookup_1 in Hall; [|exact Hj]. done. }
    unfold size; simpl. lia.
Qed.

Lemma concat_insert_snoc (bks : list (list Z)) (i : nat) (bk : list Z) (x : Z) :
  bks !! i = Some bk ->
  Permutation (concat (<[i := bk ++ [x]]> bks)) (concat bks ++ [x]).
Proof.
  intros Hi. rewrite <- (take_drop_middle bks i bk Hi) at 2.
  rewrite insert_take_drop by (by eapply lookup_lt_Some).
  rewrite !concat_app. simpl. rewrite <- !app_assoc.
  apply Permutation_app_head. apply Permutation_app_head.
  apply Permutation_app_comm.
Qed.

Lemma distribute_from (arr pivots post : list Z) (todo : list Z) :
  Sorted Z.le pivots ->
  forall (pre : list Z) (bks : list (list Z)),
    arr = pre ++ todo ++ post ->
    size bks = size pivots + 1 ->
    exists bks',
      forEach
        (fun i buckets =>
           let* x := get arr i in
           let* b := scanPivots (Z.to_nat (size pivots)) pivots
                       (size pivots) x 0 in
           let* bucket := get buckets b in
           set buckets b (bucket ++ [x]))
        (seqZ (size pre) (size todo)) bks = Done bks' /\
      size bks' = size bks /\
      (forall (b : nat) (bk : list Z), bks !! b = Some bk ->
         bks' !! b = Some
           (bk ++ List.filter (fun x => bucketOf pivots x =? Z.of_nat b) todo)) /\
      Permutation (concat bks') (concat bks ++ todo).
Proof.
  intros Hs. induction todo as [|x todo IH]; intros pre bks Harr Hlen.
  - exists bks. simpl. split; [done|]. split; [done|].
    split; [|by rewrite app_nil_r].
    intros b bk ->. by rewrite app_nil_r.
  - pose proof (size_nonneg todo) as Ht.
    rewrite seqZ_cons by (rewrite size_cons; lia).
    assert (Hx : get arr (size pre) = Done x)
      by (rewrite Harr; apply get_middle).
    cbn [forEach]. rewrite Hx. cbn [bind].
    rewrite scanPivots_bucketOf by done. cbn [bind].
    pose proof (bucketOf_range pivots x) as Hb.
    destruct (get_in_range bks (bucketOf pivots x)) as (bk0 & Hget & Hlook);
      [lia|].
    rewrite Hget. cbn [bind]. unfold set.
    replace ((0 <=? bucketOf pivots x) && (bucketOf pivots x <? size bks))
      with true by (symmetry; apply andb_true_iff; split;
                    [apply Z.leb_le|apply Z.ltb_lt]; lia).
    cbn [bind].
    replace (Z.succ (size pre)) with (size (pre ++ [x]))
      by (rewrite size_app, size_cons; unfold size; simpl; lia).
    replace (Z.pred (size (x :: todo))) with (size todo)
      by (rewrite size_cons; lia).
    set (bks1 := <[Z.to_nat (bucketOf pivots x) := bk0 ++ [x]]> bks).
    destruct (IH (pre ++ [x]) bks1) as (bks' & E & L & F & P).
    { by rewrite Harr, <- !app_assoc. }
    { unfold bks1, size. rewrite length_insert. exact Hlen. }
    exists bks'. split; [exact E|]. split.
    { rewrite L. unfold bks1, size. by rewrite length_insert. }
    split.
    + intros b bk Hbk. simpl List.filter.
      destruct (decide (b = Z.to_nat (bucketOf pivots x))) as [->|Hne].
      * rewrite Hlook in Hbk. injection Hbk as <-.
        rewrite (F _ (bk0 ++ [x])).
        2:{ unfold bks1. apply list_lookup_insert_eq. by eapply lookup_lt_Some. }
        rewrite Z2Nat.id by lia. rewrite Z.eqb_refl. by rewrite <- app_assoc.
      * rewrite (F b bk).
        2:{ unfold bks1. by rewrite list_lookup_insert_ne. }
        destruct (Z.eqb_spec (bucketOf pivots x) (Z.of_nat b)); [lia|done].
    + rewrite P. unfold bks1. rewrite (concat_insert_snoc _ _ _ _ Hlook).
      by rewrite <- app_assoc.
Qed.

Lemma concat_replicate_nil (n : nat) : concat (replicate n (@nil Z)) = [].
Proof. induction n; simpl; auto. Qed.

Lemma subrange_empty (arr : list Z) (start end_ : Z) :
  end_ < start -> subrange arr start end_ = [].
Proof. intros H. unfold subrange. by replace (Z.to_nat (end_ - start + 1)) with O by lia. Qed.

Lemma distribute_spec (arr pivots : list Z) (start end_ : Z) :
  0 <= start -> end_ < size arr -> Sorted Z.le pivots ->
  exists buckets,
    distribute arr start end_ pivots (size pivots) = Done buckets /\
    size buckets = size pivots + 1 /\
    (forall b, 0 <= b <= size pivots ->
       buckets !! Z.to_nat b
       = Some (List.filter (fun x => bucketOf pivots x =? b)
                 (subrange arr start end_))) /\
    Permutation (concat buckets) (subrange arr start end_).
Proof.
  intros Hs He Hp. unfold distribute.
  set (bks := replicate (Z.to_nat (size pivots + 1)) (@nil Z)).
  pose proof (size_nonneg pivots) as Hpc.
  assert (Hlen : size bks = size pivots + 1)
    by (unfold bks, size; rewrite length_replicate; unfold size in Hpc; lia).
  assert (Hlook : forall b, 0 <= b <= size pivots -> bks !! Z.to_nat b = Some []).
  { intros b Hb. unfold bks. apply lookup_replicate_2. lia. }
  destruct (Z.lt_ge_cases end_ start) as [Hlt|Hge].
  - rewrite seqZ_nil by lia. rewrite subrange_empty by done.
    exists bks. simpl. split; [done|]. split; [done|]. split; [auto|].
    unfold bks. by rewrite concat_replicate_nil.
  - destruct (range_decompose arr start end_)
      as (pre & mid & post & Harr & <- & <-); [lia..|].
    destruct (distribute_from arr pivots post mid Hp pre bks Harr Hlen)
      as (bks' & E & L & F & P).
    replace (size pre + size mid - 1 - size pre + 1) with (size mid) by lia.
    assert (Hsub : subrange arr (size pre) (size pre + size mid - 1) = mid)
      by (rewrite Harr; apply subrange_middle).
    exists bks'. rewrite Hsub.
    split; [exact E|]. split; [lia|]. split.
    + intros b Hb. rewrite (F _ [] (Hlook b Hb)). simpl.
      by rewrite Z2Nat.id by lia.
    + rewrite P. unfold bks. by rewrite concat_replicate_nil.
Qed.

(** C7: for an in-bounds range and ascending pivots the partitioning step
    returns [pivotCount + 1] buckets; bucket [b] holds, in their order in the
    range, exactly the elements whose number of pivots less than or equal to
    them is [b]; for an element of bucket [b] the pivots in front of position
    [b] are less than or equal to it and the pivots from position [b] on are
    greater; and the buckets together are a permutation of the range. *)
Theorem distribute_partitions (arr pivots : list Z) (start end_ : Z) :
  0 <= start -> end_ < size arr -> Sorted Z.le pivots ->
  exists buckets,
    distribute arr start end_ pivots (size pivots) = Done buckets /\
    size buckets = size pivots + 1 /\
    (forall b, 0 <= b <= size pivots ->
       buckets !! Z.to_nat b
       = Some (List.filter (fun x => bucketOf pivots x =? b)
                 (subrange arr start end_))) /\
    (forall (b : nat) (bucket : list Z) (x : Z),
       buckets !! b = Some bucket -> x ∈ bucket ->
       forall (j : nat) (p : Z), pivots !! j = Some p ->
         (p <= x <-> (j < b)%nat)) /\
    Permutation (concat buckets) (subrange arr start end_).
Proof.
  intros Hs He Hp.
  destruct (distribute_spec arr pivots start end_ Hs He Hp)
    as (buckets & E & L & F & P).
  exists buckets. split; [done|]. split; [done|]. split; [done|].
  split; [|done].
  intros b bucket x Hbk Hx j p Hj.
  apply lookup_lt_Some in Hbk as Hb. unfold size in L.
  assert (Hrange : 0 <= Z.of_nat b <= size pivots) by (unfold size; lia).
  specialize (F (Z.of_nat b) Hrange). rewrite Nat2Z.id, Hbk in F.
  injection F as ->. apply list_elem_of_In, filter_In in Hx as [_ Hx].
  apply Z.eqb_eq in Hx.
  rewrite (bucketOf_interval pivots x Hp j p Hj). lia.
Qed.

Lemma distribute_partitions_witness :
  exists buckets,
    distribute [7; 1; 5; 9; 3; 5; 0] 1 5 [3; 5] (size [3; 5]) = Done buckets /\
    size buckets = size [3; 5] + 1 /\
    (forall b, 0 <= b <= size [3; 5] ->
       buckets !! Z.to_nat b
       = Some (List.filter (fun x => bucketOf [3; 5] x =? b)
                 (subrange [7; 1; 5; 9; 3; 5; 0] 1 5))) /\
    (forall (b : nat) (bucket : list Z) (x : Z),
       buckets !! b = Some bucket -> x ∈ bucket ->
       forall (j : nat) (p : Z), [3; 5] !! j = Some p ->
         (p <= x <-> (j < b)%nat)) /\
    Permutation (concat buckets) (subrange [7; 1; 5; 9; 3; 5; 0] 1 5).
Proof.
  apply (distribute_partitions [7; 1; 5; 9; 3; 5; 0] [3; 5] 1 5).
  - lia.
  - vm_compute. reflexivity.
  - repeat constructor. lia.
Defined.

Example distribute_example :
  distribute [7; 1; 5; 9; 3; 5; 0] 1 5 [3; 5] 2 = Done [[1]; [3]; [5; 9; 5]].
Proof. reflexivity. Qed.

(** ** Pivot selection *)

Lemma alpayTripleFix_whole (l : list Z) :
  exists l',
    alpayTripleFixBidirectional l 0 (size l - 1) = Done l' /\
    Permutation l l' /\ Sorted Z.le l'.
Proof.
  destruct (alpayTripleFix_range [] l []) as (l' & E & P & S).
  rewrite !app_nil_r in E. change (size (@nil Z)) with 0 in E.
  rewrite Z.add_0_l in E. simpl in E. eauto.
Qed.

Lemma round53_nonneg (p : Z) : 0 <= p -> 0 <= fst (round53 p).
Proof.
  intros Hp. unfold round53.
  destruct (Z.log2 p + 1 <=? 53); [done|].
  pose proof (proj2 (Z.shiftr_nonneg p (Z.log2 p + 1 - 53)) Hp).
  destruct (_ || _); simpl; lia.
Qed.

Lemma outlierCut_nonneg (n : Z) : 0 <= outlierCut n.
Proof.
  unfold outlierCut. destruct (Z.leb_spec n 0); [done|].
  pose proof (round53_nonneg (n * PIVOT_OUTLIER_FRAC_mant)) as Hq.
  destruct (round53 (n * PIVOT_OUTLIER_FRAC_mant)) as [q d]. simpl in Hq.
  assert (0 <= q) by (apply Hq; unfold PIVOT_OUTLIER_FRAC_mant; lia).
  destruct (0 <=? d + PIVOT_OUTLIER_FRAC_exp).
  - by apply Z.shiftl_nonneg.
  - by apply Z.shiftr_nonneg.
Qed.

Lemma pivotCountOf_ge2 (n : Z) : 2 <= pivotCountOf n.
Proof. unfold pivotCountOf. lia. Qed.

Lemma pivotSampleCountOf_double (pc : Z) :
  0 <= pc -> pivotSampleCountOf pc = 2 * pc.
Proof. unfold pivotSampleCountOf. lia. Qed.

Lemma gatherSamples_spec (rand : nat -> nat) (k : nat) (arr : list Z)
  (start size_ : Z) (n : nat) :
  0 <= start -> 0 < size_ -> start + size_ <= size arr ->
  exists samples,
    gatherSamples rand k arr start size_ (Z.of_nat n)
    = Done (samples, (k + n)%nat) /\
    length samples = n /\
    Forall (fun x => x ∈ arr) samples.
Proof.
  intros Hs Hsz He. unfold gatherSamples. induction n as [|n IH].
  - exists []. simpl. rewrite Nat.add_0_r. by repeat split.
  - destruct IH as (samples & E & L & F).
    rewrite seqZ_S, forEach_app, E. cbn [bind forEach].
    pose proof (Z.rem_bound_pos (Z.of_nat (rand (k + n)%nat)) size_
                  ltac:(lia) Hsz) as Hr.
    destruct (get_in_range arr
                (start + Z.rem (Z.of_nat (rand (k + n)%nat)) size_))
      as (x & Hget & Hx); [lia|].
    rewrite Hget. cbn [bind]. exists (samples ++ [x]).
    split; [do 2 f_equal; lia|]. split.
    + rewrite length_app. simpl. lia.
    + apply Forall_app. split; [done|]. constructor; [|done].
      by eapply list_elem_of_lookup_2.
Qed.

Lemma trimOutliers_spec (samples : list Z) (pivotCount : Z) :
  pivotCount <= size samples ->
  pivotCount <= size (trimOutliers samples pivotCount) /\
  (forall x, x ∈ trimOutliers samples pivotCount -> x ∈ samples).
Proof.
  intros Hpc. unfold trimOutliers.
  pose proof (outlierCut_nonneg (size samples)) as Hcut.
  destruct (Z.ltb_spec (outlierCut (size samples) * 2)
              (size samples - pivotCount)) as [Hlt|Hge]; [|done].
  split.
  - unfold size in *. rewrite length_take, length_drop. lia.
  - intros x Hx. eapply subseteq_drop, subseteq_take, Hx.
Qed.

Lemma stride_in_bounds (m pivotCount i : Z) :
  0 < pivotCount <= m -> 0 <= i < pivotCount ->
  0 <= i * Z.max 1 (Z.quot m pivotCount) < m.
Proof.
  intros Hpc Hi. rewrite Z.quot_div_nonneg by lia.
  pose proof (Z.mul_div_le m pivotCount ltac:(lia)).
  assert (1 <= m / pivotCount) by (apply Z.div_le_lower_bound; lia).
  rewrite Z.max_r by lia. nia.
Qed.

Lemma pickPivots_spec (samples : list Z) (pivotCount : Z) :
  0 < pivotCount <= size samples ->
  exists pivots,
    pickPivots samples pivotCount = Done pivots /\
    size pivots = pivotCount /\
    Forall (fun x => x ∈ samples) pivots.
Proof.
  intros Hpc. unfold pickPivots.
  assert (Hgen : forall n : nat, Z.of_nat n <= pivotCount ->
    exists pivots,
      forEach
        (fun i pivots =>
           let* x := get samples (i * strideOf samples pivotCount) in
           Done (pivots ++ [x]))
        (seqZ 0 (Z.of_nat n)) [] = Done pivots /\
      length pivots = n /\ Forall (fun x => x ∈ samples) pivots).
  { induction n as [|n IH]; intros Hn.
    - exists []. by repeat split.
    - destruct IH as (pivots & E & L & F); [lia|].
      rewrite seqZ_S, forEach_app, E. cbn [bind forEach].
      destruct (get_in_range samples
                  ((0 + Z.of_nat n) * strideOf samples pivotCount))
        as (x & Hget & Hx).
      { apply stride_in_bounds; lia. }
      rewrite Hget. cbn [bind]. exists (pivots ++ [x]). split; [done|].
      split; [rewrite length_app; simpl; lia|].
      apply Forall_app. split; [done|]. constructor; [|done].
      by eapply list_elem_of_lookup_2. }
  destruct (Hgen (Z.to_nat pivotCount)) as (pivots & E & L & F); [lia|].
  rewrite Z2Nat.id in E by lia. exists pivots. split; [done|].
  split; [unfold size; lia|done].
Qed.

Lemma selectPivots_spec (rand : nat -> nat) (k : nat) (arr : list Z)
  (start end_ : Z) :
  0 <= start -> end_ < size arr -> 0 < end_ - start + 1 ->
  exists pivots k',
    selectPivots rand k arr start end_ = Done (pivots, k') /\
    size pivots = pivotCountOf (end_ - start + 1) /\
    Sorted Z.le pivots /\
    Forall (fun x => x ∈ arr) pivots.
Proof.
  intros Hs He Hsz. unfold selectPivots.
  pose proof (pivotCountOf_ge2 (end_ - start + 1)) as Hpc.
  set (pc := pivotCountOf (end_ - start + 1)) in *.
  rewrite pivotSampleCountOf_double by lia.
  destruct (gatherSamples_spec rand k arr start (end_ - start + 1)
              (Z.to_nat (2 * pc)) Hs Hsz ltac:(lia))
    as (samples & E & L & F).
  rewrite Z2Nat.id in E by lia. rewrite E. cbn [bind].
  destruct (alpayTripleFix_whole samples) as (sorted & E1 & P1 & S1).
  rewrite E1. cbn [bind].
  assert (Hsorted : size sorted = 2 * pc)
    by (unfold size; rewrite <- (Permutation_length P1); lia).
  destruct (trimOutliers_spec sorted pc ltac:(lia)) as [Htrim Hsub].
  destruct (pickPivots_spec (trimOutliers sorted pc) pc ltac:(lia))
    as (pivots & E2 & L2 & F2).
  rewrite E2. cbn [bind]. unfold alpayTripleSortPivotArray.
  destruct (alpayTripleFix_whole pivots) as (pivots' & E3 & P3 & S3).
  rewrite E3. cbn [bind]. exists pivots', (k + Z.to_nat (2 * pc))%nat.
  split; [done|]. split.
  { unfold size. by rewrite <- (Permutation_length P3). }
  split; [done|]. rewrite <- P3.
  eapply Forall_impl; [exact F2|]. simpl. intros x Hx.
  apply Hsub in Hx. rewrite <- P1 in Hx.
  by eapply Forall_forall in F.
Qed.

(** C3: for an in-bounds range longer than the threshold and any stream of
    draws, gathering and sorting the samples returns, the trimmed sample
    vector has at least [pivotCount] elements, every index [i * step] with
    [0 <= i < pivotCount] lies inside it, and so picking the pivots (and the
    whole of lines 106-134) returns without a read outside a vector. *)
Theorem pivot_stride_in_bounds (rand : nat -> nat) (k : nat) (arr : list Z)
  (start end_ : Z) :
  0 <= start -> end_ < size arr -> ALPAY_SMALL_THRESH < end_ - start + 1 ->
  exists samples k1 sorted,
    gatherSamples rand k arr start (end_ - start + 1)
      (pivotSampleCountOf (pivotCountOf (end_ - start + 1)))
    = Done (samples, k1) /\
    alpayTripleFixBidirectional samples 0 (size samples - 1) = Done sorted /\
    pivotCountOf (end_ - start + 1)
    <= size (trimOutliers sorted (pivotCountOf (end_ - start + 1))) /\
    (forall i, 0 <= i < pivotCountOf (end_ - start + 1) ->
       0 <= i * strideOf (trimOutliers sorted (pivotCountOf (end_ - start + 1)))
                  (pivotCountOf (end_ - start + 1))
         < size (trimOutliers sorted (pivotCountOf (end_ - start + 1)))) /\
    (exists pivots,
       pickPivots (trimOutliers sorted (pivotCountOf (end_ - start + 1)))
         (pivotCountOf (end_ - start + 1)) = Done pivots /\
       size pivots = pivotCountOf (end_ - start + 1)) /\
    (exists pivots k', selectPivots rand k arr start end_ = Done (pivots, k')).
Proof.
  unfold ALPAY_SMALL_THRESH. intros Hs He Hsz.
  pose proof (pivotCountOf_ge2 (end_ - start + 1)) as Hpc.
  set (pc := pivotCountOf (end_ - start + 1)) in *.
  rewrite pivotSampleCountOf_double by lia.
  destruct (gatherSamples_spec rand k arr start (end_ - start + 1)
              (Z.to_nat (2 * pc)) Hs ltac:(lia) ltac:(lia))
    as (samples & E & L & _).
  rewrite Z2Nat.id in E by lia.
  destruct (alpayTripleFix_whole samples) as (sorted & E1 & P1 & _).
  assert (Hsorted : size sorted = 2 * pc)
    by (unfold size; rewrite <- (Permutation_length P1); lia).
  destruct (trimOutliers_spec sorted pc ltac:(lia)) as [Htrim _].
  destruct (pickPivots_spec (trimOutliers sorted pc) pc ltac:(lia))
    as (pivots & E2 & L2 & _).
  exists samples, (k + Z.to_nat (2 * pc))%nat, sorted.
  split; [done|]. split; [done|]. split; [done|]. split.
  { intros i Hi. apply stride_in_bounds; lia. }
  split; [eauto|].
  destruct (selectPivots_spec rand k arr start end_ Hs He ltac:(lia))
    as (pivots' & k' & E3 & _).
  eauto.
Qed.

Lemma pivot_stride_in_bounds_witness :
  exists samples k1 sorted,
    gatherSamples demoDraws 0 demo 0 (43 - 0 + 1)
      (pivotSampleCountOf (pivotCountOf (43 - 0 + 1)))
    = Done (samples, k1) /\
    alpayTripleFixBidirectional samples 0 (size samples - 1) = Done sorted /\
    pivotCountOf (43 - 0 + 1)
    <= size (trimOutliers sorted (pivotCountOf (43 - 0 + 1))) /\
    (forall i, 0 <= i < pivotCountOf (43 - 0 + 1) ->
       0 <= i * strideOf (trimOutliers sorted (pivotCountOf (43 - 0 + 1)))
                  (pivotCountOf (43 - 0 + 1))
         < size (trimOutliers sorted (pivotCountOf (43 - 0 + 1)))) /\
    (exists pivots,
       pickPivots (trimOutliers sorted (pivotCountOf (43 - 0 + 1)))
         (pivotCountOf (43 - 0 + 1)) = Done pivots /\
       size pivots = pivotCountOf (43 - 0 + 1)) /\
    (exists pivots k', selectPivots demoDraws 0 demo 0 43 = Done (pivots, k')).
Proof.
  apply (pivot_stride_in_bounds demoDraws 0 demo 0 43).
  - lia.
  - vm_compute. reflexivity.
  - vm_compute. reflexivity.
Defined.

(** ** The driver *)

(** C9: on a range of at most [ALPAY_SMALL_THRESH] elements the driver is the
    triple pass and nothing else: same outcome, same vector, no draw
    consumed, whatever the recursion budget. *)
Theorem alpayFractalSortAdvanced_small_range {MH : MinHeap} (fuel : nat)
  (rand : nat -> nat) (k : nat) (arr : list Z) (start end_ : Z) :
  end_ - start + 1 <= ALPAY_SMALL_THRESH ->
  alpayFractalSortAdvanced fuel rand k arr start end_
  = let* arr' := alpayTripleFixBidirectional arr start end_ in Done (arr', k).
Proof.
  intros Hsmall. apply Z.leb_le in Hsmall.
  destruct fuel; cbn [alpayFractalSortAdvanced]; by rewrite Hsmall.
Qed.

Lemma alpayFractalSortAdvanced_small_range_witness :
  alpayFractalSortAdvanced 0 demoDraws 0 [9; 4; 3; 2; 1; 0] 1 4
  = let* arr' := alpayTripleFixBidirectional [9; 4; 3; 2; 1; 0] 1 4 in
    Done (arr', 0%nat).
Proof.
  apply (alpayFractalSortAdvanced_small_range 0 demoDraws 0 [9; 4; 3; 2; 1; 0] 1 4).
  vm_compute. discriminate.
Defined.

Lemma copyBack_spec (pre mid post mergedAll : list Z) :
  length mergedAll = length mid ->
  copyBack (pre ++ mid ++ post) (size pre) mergedAll
  = Done (pre ++ mergedAll ++ post).
Proof.
  intros Hlen. unfold copyBack.
  assert (Hgen : forall n : nat, (n <= length mergedAll)%nat ->
    forEach
      (fun i arr => let* x := get mergedAll i in set arr (size pre + i) x)
      (seqZ 0 (Z.of_nat n)) (pre ++ mid ++ post)
    = Done (pre ++ take n mergedAll ++ drop n mid ++ post)).
  { induction n as [|n IH]; intros Hn; [done|].
    rewrite seqZ_S, forEach_app, IH by lia. cbn [bind forEach].
    destruct (lookup_lt_is_Some_2 mergedAll n) as [x Hx]; [lia|].
    destruct (lookup_lt_is_Some_2 mid n) as [y Hy]; [lia|].
    assert (Hget : get mergedAll (0 + Z.of_nat n) = Done x).
    { apply get_lookup; [lia|].
      by replace (Z.to_nat (0 + Z.of_nat n)) with n by lia. }
    rewrite Hget. cbn [bind]. rewrite (drop_S mid y n Hy).
    replace (pre ++ take n mergedAll ++ (y :: drop (S n) mid) ++ post)
      with ((pre ++ take n mergedAll) ++ y :: drop (S n) mid ++ post)
      by (by rewrite <- !app_assoc).
    replace (size pre + (0 + Z.of_nat n)) with (size (pre ++ take n mergedAll))
      by (rewrite size_app; unfold size; rewrite length_take; lia).
    rewrite set_middle. rewrite (take_S_r mergedAll n x Hx).
    by rewrite <- !app_assoc. }
  unfold size at 2. rewrite Hgen by lia.
  rewrite firstn_all, Hlen, drop_all. done.
Qed.

Lemma sortBuckets_partial
  (sortRec : nat -> list Z -> Z -> Z -> res (list Z * nat)) :
  (forall k bucket,
     sortsOrRunsOut [] bucket [] (sortRec k bucket 0 (size bucket - 1))) ->
  forall (buckets : list (list Z)) (k : nat),
    match sortBuckets sortRec k buckets with
    | OutOfFuel => True
    | Fault => False
    | Done (buckets', _) =>
        Permutation (concat buckets) (concat buckets') /\
        Forall (Sorted Z.le) buckets'
    end.
Proof.
  intros Hrec. induction buckets as [|bucket rest IH]; intros k.
  - simpl. by split.
  - cbn [sortBuckets].
    assert (Hfirst : match (if 1 <? size bucket
                            then sortRec k bucket 0 (size bucket - 1)
                            else Done (bucket, k)) with
                     | OutOfFuel => True
                     | Fault => False
                     | Done (bucket', _) =>
                         Permutation bucket bucket' /\ Sorted Z.le bucket'
                     end).
    { destruct (Z.ltb_spec 1 (size bucket)) as [Hbig|Hsmall].
      - specialize (Hrec k bucket).
        destruct (sortRec k bucket 0 (size bucket - 1)) as [[b' k']| |];
          [|done..].
        destruct Hrec as (mid' & -> & P & S). simpl. by rewrite app_nil_r.
      - split; [done|]. apply Sorted_short. unfold size in Hsmall. lia. }
    destruct (if 1 <? size bucket then _ else _) as [[bucket' k1]| |];
      [|done..].
    cbn [bind]. specialize (IH k1).
    destruct (sortBuckets sortRec k1 rest) as [[rest' k2]| |]; [|done..].
    cbn [bind]. destruct Hfirst as [P1 S1], IH as [P2 S2]. split.
    + simpl. by rewrite P1, P2.
    + by constructor.
Qed.

Lemma alpayFractalSortAdvanced_partial {MH : MinHeap} (fuel : nat) :
  forall (rand : nat -> nat) (k : nat) (pre mid post : list Z),
    sortsOrRunsOut pre mid post
      (alpayFractalSortAdvanced fuel rand k (pre ++ mid ++ post)
         (size pre) (size pre + size mid - 1)).
Proof.
  induction fuel as [|fuel IH]; intros rand k pre mid post;
    cbn [alpayFractalSortAdvanced];
    (destruct (Z.leb_spec (size pre + size mid - 1 - size pre + 1)
                 ALPAY_SMALL_THRESH) as [Hsmall|Hbig];
     [destruct (alpayTripleFix_range pre mid post) as (mid' & -> & P & S);
      simpl; eauto|]); [done|].
  pose proof (size_nonneg pre) as Hpre. pose proof (size_nonneg post) as Hpost.
  unfold ALPAY_SMALL_THRESH in Hbig.
  assert (Hend : size pre + size mid - 1 < size (pre ++ mid ++ post))
    by (rewrite !size_app; lia).
  destruct (selectPivots_spec rand k (pre ++ mid ++ post) (size pre)
              (size pre + size mid - 1) Hpre Hend ltac:(lia))
    as (pivots & k1 & E1 & L1 & S1 & _).
  rewrite E1. cbn [bind]. rewrite <- L1.
  destruct (distribute_spec (pre ++ mid ++ post) pivots (size pre)
              (size pre + size mid - 1) Hpre Hend S1)
    as (buckets & E2 & _ & _ & P2).
  rewrite E2. cbn [bind]. rewrite subrange_middle in P2.
  pose proof (sortBuckets_partial (alpayFractalSortAdvanced fuel rand)) as Hsb.
  specialize (Hsb (fun k0 bucket => ltac:(
    pose proof (IH rand k0 [] bucket []) as H;
    rewrite app_nil_r in H; exact H)) buckets k1).
  destruct (sortBuckets (alpayFractalSortAdvanced fuel rand) k1 buckets)
    as [[buckets' k2]| |]; [|done..].
  cbn [bind]. destruct Hsb as [P3 S3].
  destruct (alpayMultiBucketMerge_spec buckets' S3 []) as (merged & E4 & P4 & S4).
  rewrite E4. cbn [bind].
  assert (Hperm : Permutation mid merged) by (by rewrite P4, <- P3, P2).
  rewrite copyBack_spec by (by rewrite (Permutation_length Hperm)).
  simpl. eauto.
Qed.

(** ** A range of equal elements *)

Lemma all_equal_replicate (v : Z) (n : nat) (l : list Z) :
  Forall (fun x => x ∈ replicate n v) l -> l = replicate (length l) v.
Proof.
  induction 1 as [|x l Hx _ IH]; [done|].
  apply elem_of_replicate in Hx as [-> _]. simpl. by f_equal.
Qed.

Lemma bucketOf_replicate (v : Z) (m : nat) :
  bucketOf (replicate m v) v = Z.of_nat m.
Proof.
  unfold bucketOf, size. induction m as [|m IH]; [done|].
  simpl. rewrite Z.leb_refl. simpl. lia.
Qed.

Lemma filter_replicate (f : Z -> bool) (v : Z) (n : nat) :
  List.filter f (replicate n v) = if f v then replicate n v else [].
Proof.
  induction n as [|n IH]; simpl; [by destruct (f v)|].
  rewrite IH. by destruct (f v).
Qed.

Lemma subrange_whole (l : list Z) : subrange l 0 (size l - 1) = l.
Proof.
  unfold subrange, size. simpl. apply firstn_all2. lia.
Qed.

(** On more than [ALPAY_SMALL_THRESH] equal elements every pivot is that
    element, so the last bucket receives the whole range. *)
Lemma partition_constant (v : Z) (n : nat) (rand : nat -> nat) (k : nat) :
  ALPAY_SMALL_THRESH < Z.of_nat n ->
  exists pivots k' buckets,
    selectPivots rand k (replicate n v) 0 (Z.of_nat n - 1) = Done (pivots, k') /\
    distribute (replicate n v) 0 (Z.of_nat n - 1) pivots
      (pivotCountOf (Z.of_nat n - 1 - 0 + 1)) = Done buckets /\
    (forall (j : nat) (bucket : list Z),
       Z.of_nat j < pivotCountOf (Z.of_nat n - 1 - 0 + 1) ->
       buckets !! j = Some bucket -> bucket = []) /\
    buckets !! Z.to_nat (pivotCountOf (Z.of_nat n - 1 - 0 + 1))
    = Some (replicate n v).
Proof.
  unfold ALPAY_SMALL_THRESH. intros Hn.
  assert (Hsize : size (replicate n v) = Z.of_nat n)
    by (unfold size; by rewrite length_replicate).
  destruct (selectPivots_spec rand k (replicate n v) 0 (Z.of_nat n - 1))
    as (pivots & k' & E1 & L1 & S1 & F1); [lia..|].
  apply all_equal_replicate in F1.
  destruct (distribute_spec (replicate n v) pivots 0 (Z.of_nat n - 1))
    as (buckets & E2 & L2 & F2 & _); [lia..|done|].
  rewrite L1 in E2. exists pivots, k', buckets.
  split; [done|]. split; [done|].
  assert (Hsub : subrange (replicate n v) 0 (Z.of_nat n - 1) = replicate n v)
    by (rewrite <- Hsize at 1; apply subrange_whole).
  rewrite Hsub in F2.
  pose proof (size_nonneg pivots) as Hpc.
  assert (Hb : forall x, bucketOf pivots x = bucketOf (replicate (length pivots) v) x)
    by (intros; by rewrite <- F1).
  split.
  - intros j bucket Hj Hbucket.
    rewrite <- L1 in Hj. specialize (F2 (Z.of_nat j) ltac:(lia)).
    rewrite Nat2Z.id, Hbucket, filter_replicate, Hb, bucketOf_replicate in F2.
    injection F2 as ->.
    destruct (Z.eqb_spec (Z.of_nat (length pivots)) (Z.of_nat j)); [|done].
    unfold size in Hj. lia.
  - rewrite <- L1. rewrite (F2 (size pivots)) by lia.
    rewrite filter_replicate, Hb, bucketOf_replicate.
    unfold size. by rewrite Z.eqb_refl.
Qed.

Lemma sortBuckets_runs_out
  (sortRec : nat -> list Z -> Z -> Z -> res (list Z * nat)) (big : list Z) :
  1 < size big ->
  (forall k, sortRec k big 0 (size big - 1) = OutOfFuel) ->
  forall (i : nat) (buckets : list (list Z)) (k : nat),
    (forall (j : nat) (bucket : list Z),
       (j < i)%nat -> buckets !! j = Some bucket -> bucket = []) ->
    buckets !! i = Some big ->
    sortBuckets sortRec k buckets = OutOfFuel.
Proof.
  intros Hbig Hrec. induction i as [|i IH]; intros buckets k Hfirst Hi.
  - destruct buckets as [|b rest]; [done|]. injection Hi as ->.
    cbn [sortBuckets]. apply Z.ltb_lt in Hbig. by rewrite Hbig, Hrec.
  - destruct buckets as [|b rest]; [done|].
    rewrite (Hfirst O b) by (done || lia).
    cbn [sortBuckets]. change (1 <? size (@nil Z)) with false. cbn [bind].
    rewrite (IH rest k); [done| |done].
    intros j bucket Hj. apply (Hfirst (S j)). lia.
Qed.

(** The driver never returns on a range of more than [ALPAY_SMALL_THRESH]
    equal elements: the recursive call on the last bucket is the call it
    came from. *)
Lemma alpayFractalSortAdvanced_constant_diverges {MH : MinHeap}
  (v : Z) (n : nat) :
  ALPAY_SMALL_THRESH < Z.of_nat n ->
  forall (fuel : nat) (rand : nat -> nat) (k : nat),
    alpayFractalSortAdvanced fuel rand k (replicate n v) 0 (Z.of_nat n - 1)
    = OutOfFuel.
Proof.
  intros Hn. assert (Hleb : (Z.of_nat n - 1 - 0 + 1 <=? ALPAY_SMALL_THRESH) = false)
    by (apply Z.leb_gt; lia).
  induction fuel as [|fuel IH]; intros rand k;
    cbn [alpayFractalSortAdvanced]; rewrite Hleb; [done|].
  destruct (partition_constant v n rand k Hn)
    as (pivots & k' & buckets & E1 & E2 & Hfirst & Hlast).
  rewrite E1. cbn [bind]. rewrite E2. cbn [bind].
  assert (Hsize : size (replicate n v) = Z.of_nat n)
    by (unfold size; by rewrite length_replicate).
  rewrite (sortBuckets_runs_out (alpayFractalSortAdvanced fuel rand)
             (replicate n v) ltac:(unfold ALPAY_SMALL_THRESH in Hn; lia)
             ltac:(intros; rewrite Hsize; apply IH)
             (Z.to_nat (pivotCountOf (Z.of_nat n - 1 - 0 + 1))) buckets k');
    [done| |done].
  intros j bucket Hj. apply Hfirst.
  pose proof (pivotCountOf_ge2 (Z.of_nat n - 1 - 0 + 1)). lia.
Qed.

(** Whenever the driver returns on the whole of a vector, the result is the
    sorted permutation of the input, of the same length; and it never leaves
    the bounds of a vector.  The only way it fails to sort is by not
    returning. *)
Theorem alpayFractalSortAdvanced_sorts_if_it_returns {MH : MinHeap}
  (fuel : nat) (rand : nat -> nat) (k : nat) (arr : list Z) :
  match alpayFractalSortAdvanced fuel rand k arr 0 (size arr - 1) with
  | OutOfFuel => True
  | Fault => False
  | Done (out, _) =>
      Permutation arr out /\ Sorted Z.le out /\ length out = length arr
  end.
Proof.
  pose proof (alpayFractalSortAdvanced_partial fuel rand k [] arr []) as H.
  rewrite app_nil_r in H. change (size (@nil Z)) with 0 in H.
  rewrite Z.add_0_l in H. simpl in H.
  destruct (alpayFractalSortAdvanced fuel rand k arr 0 (size arr - 1))
    as [[out k']| |]; [|done..].
  destruct H as (mid' & -> & P & S). rewrite app_nil_r.
  split; [done|]. split; [done|]. by rewrite (Permutation_length P).
Qed.

(** The demonstration input of [main] is sorted within three levels of
    recursion under the draws [demoDraws]. *)
Example alpayFractalSortAdvanced_demo :
  fst <$> (match alpayFractalSortAdvanced 3 demoDraws 0 demo 0 (size demo - 1) with
           | Done r => Some r
           | _ => None
           end)
  = Some [0; 0; 1; 2; 4; 5; 6; 7; 8; 8; 9; 12; 17; 18; 19; 23; 29; 35; 43;
          57; 59; 74; 75; 75; 86; 98; 231; 248; 342; 559; 560; 586; 668;
          678; 754; 765; 788; 866; 965; 976; 2485; 2495; 2495; 75578].
Proof. vm_compute. reflexivity. Qed.

(** ** Scenarios *)

Example fix_scenario1 :
  alpayTripleFixBidirectional [3; 1; 2] 0 2 = Done [1; 2; 3].
Proof. reflexivity. Qed.

Example fix_scenario3 :
  alpayTripleFixBidirectional [5; 5; 5; 5; 5] 0 4 = Done [5; 5; 5; 5; 5].
Proof. reflexivity. Qed.

Example fix_pivot_array :
  alpayTripleSortPivotArray [9; 4; 7] = Done [4; 7; 9].
Proof. reflexivity. Qed.

Example driver_scenario2 :
  alpayFractalSortAdvanced 0 demoDraws 0 [] 0 (size (@nil Z) - 1) = Done ([], 0%nat).
Proof. reflexivity. Qed.

(** X1: sorting a sorted vector gives it back whenever the driver returns. *)
Theorem alpayFractalSortAdvanced_sorted_fixed_if_it_returns {MH : MinHeap}
  (fuel : nat) (rand : nat -> nat) (k : nat) (arr out : list Z) (k' : nat) :
  Sorted Z.le arr ->
  alpayFractalSortAdvanced fuel rand k arr 0 (size arr - 1) = Done (out, k') ->
  out = arr.
Proof.
  intros Hsorted E.
  pose proof (alpayFractalSortAdvanced_sorts_if_it_returns fuel rand k arr) as H.
  rewrite E in H. destruct H as (P & S & _).
  symmetry. by apply (Sorted_unique Z.le).
Qed.

(** C1, at the input of thirteen equal elements: whatever the budget, the
    draws and the heap, the driver produces no output at all, so it does not
    produce the sorted permutation the claim promises. *)
Theorem alpayFractalSortAdvanced_no_output_on_equal_elements {MH : MinHeap}
  (fuel : nat) (rand : nat -> nat) (k : nat) :
  ~ exists out k',
      alpayFractalSortAdvanced fuel rand k (replicate 13 5) 0 12
      = Done (out, k').
Proof.
  intros (out & k' & E).
  rewrite (alpayFractalSortAdvanced_constant_diverges 5 13) in E; [done|].
  vm_compute. reflexivity.
Qed.

(** C2, at the input of thirteen equal elements: the partitioning step puts
    all thirteen elements into the last of its four buckets, so the recursive
    call is on a range as long as its parent's, and the driver exhausts every
    recursion budget. *)
Theorem alpayFractalSortAdvanced_recursion_does_not_shrink {MH : MinHeap}
  (rand : nat -> nat) (k : nat) :
  (exists pivots k' buckets,
     selectPivots rand k (replicate 13 5) 0 12 = Done (pivots, k') /\
     distribute (replicate 13 5) 0 12 pivots 3 = Done buckets /\
     buckets !! 3%nat = Some (replicate 13 5)) /\
  (forall fuel,
     alpayFractalSortAdvanced fuel rand k (replicate 13 5) 0 12 = OutOfFuel).
Proof.
  assert (H13 : ALPAY_SMALL_THRESH < Z.of_nat 13) by (vm_compute; reflexivity).
  split.
  - destruct (partition_constant 5 13 rand k H13)
      as (pivots & k' & buckets & E1 & E2 & _ & Hlast).
    exists pivots, k', buckets. split; [exact E1|]. split; [exact E2|exact Hlast].
  - intros fuel. by apply (alpayFractalSortAdvanced_constant_diverges 5 13).
Qed.

(** C8, at the input of thirteen equal elements: the input is sorted, and
    the driver does not give it back, whatever the budget, the draws and the
    heap. *)
Theorem alpayFractalSortAdvanced_sorted_input_not_returned {MH : MinHeap}
  (fuel : nat) (rand : nat -> nat) (k k' : nat) :
  Sorted Z.le (replicate 13 5) /\
  alpayFractalSortAdvanced fuel rand k (replicate 13 5) 0 12
  <> Done (replicate 13 5, k').
Proof.
  split.
  - repeat constructor; lia.
  - rewrite (alpayFractalSortAdvanced_constant_diverges 5 13); [done|].
    vm_compute. reflexivity.
Qed.

(** * Further properties of the four functions *)

(** ** The triple pass and the pivot array sort *)

(** X2: the pivot array sort (lines 49-51) returns on every vector, the empty one
    included (its range is then 0..-1), and gives the sorted permutation. *)
Theorem alpayTripleSortPivotArray_sorts (pivots : list Z) :
  exists sorted,
    alpayTripleSortPivotArray pivots = Done sorted /\
    Permutation pivots sorted /\ Sorted Z.le sorted /\
    length sorted = length pivots.
Proof.
  unfold alpayTripleSortPivotArray.
  destruct (alpayTripleFix_whole pivots) as (sorted & E & P & S).
  exists sorted. split; [done|]. split; [done|]. split; [done|].
  by rewrite (Permutation_length P).
Qed.

(** X3: a range that is already in order is left as it is: the first turn of the
    loop swaps nothing. *)
Theorem alpayTripleFixBidirectional_sorted_unchanged (arr : list Z)
  (start end_ : Z) :
  0 <= start -> end_ < size arr ->
  Sorted Z.le (subrange arr start end_) ->
  alpayTripleFixBidirectional arr start end_ = Done arr.
Proof.
  intros Hs He Hsorted.
  destruct (Z.le_gt_cases end_ start) as [Hle|Hgt].
  { unfold alpayTripleFixBidirectional.
    by destruct (Z.leb_spec end_ start); [|lia]. }
  destruct (range_decompose arr start end_) as (pre & mid & post & -> & <- & <-);
    [lia..|].
  rewrite subrange_middle in Hsorted.
  destruct (alpayTripleFix_range pre mid post) as (mid' & -> & P & S).
  by rewrite (Sorted_unique Z.le mid mid' Hsorted S P).
Qed.

Lemma alpayTripleFixBidirectional_sorted_unchanged_witness :
  alpayTripleFixBidirectional [9; 1; 2; 2; 5; 0] 1 4 = Done [9; 1; 2; 2; 5; 0].
Proof.
  apply (alpayTripleFixBidirectional_sorted_unchanged [9; 1; 2; 2; 5; 0] 1 4).
  - lia.
  - vm_compute. reflexivity.
  - change (Sorted Z.le [1; 2; 2; 5]). repeat constructor; lia.
Defined.







Example alpayTripleFixBidirectional_reads_past_end :
  alpayTripleFixBidirectional [3; 1; 2] 0 3 = Fault.
Proof. reflexivity. Qed.

Example alpayTripleFixBidirectional_ignores_empty_range :
  alpayTripleFixBidirectional [3; 1; 2] 7 (-4) = Done [3; 1; 2].
Proof. reflexivity. Qed.

(** ** The merge on buckets in any order *)

Section MergeAnyBuckets.
Context {MH : MinHeap}.
Variable buckets : list (list Z).

Lemma itemTail_head (it : HeapItem) :
  validItem buckets it ->
  exists bucket,
    buckets !! Z.to_nat (bIndex it) = Some bucket /\
    itemTail buckets it = value it :: drop (S (Z.to_nat (iIndex it))) bucket.
Proof using Type.
  intros (Hb & Hi & bucket & Hbk & Hv). exists bucket. split; [done|].
  unfold itemTail. rewrite Hbk. simpl. by rewrite (drop_S _ _ _ Hv).
Qed.

Lemma mergeLoop_permutes (fuel : nat) :
  forall (h : heap) (dest : list Z),
    Forall (validItem buckets) (heap_items h) ->
    (length (pending buckets (heap_items h)) <= fuel)%nat ->
    exists out,
      mergeLoop fuel buckets h dest = Done out /\
      Permutation out (dest ++ pending buckets (heap_items h)).
Proof using Type.
  induction fuel as [|fuel IH]; intros h dest Hvalid Hlen;
    cbn [mergeLoop]; destruct (heap_pop h) as [[top h']|] eqn:Hpop;
    try (rewrite (heap_pop_none _ Hpop); simpl; rewrite app_nil_r; by eauto);
    destruct (heap_pop_some _ _ _ Hpop) as [Hperm _];
    pose proof (pending_Permutation buckets _ _ Hperm) as Hpend;
    cbn [pending] in Hpend;
    rewrite Hperm in Hvalid; inversion Hvalid as [|? ? Htop Hvalid']; subst;
    destruct (itemTail_head top Htop) as (bucket & Hbk & E);
    rewrite E in Hpend; rewrite Hpend in Hlen; simpl in Hlen; [lia|].
  destruct Htop as (Hb & Hi & _).
  rewrite (get_lookup buckets (bIndex top) bucket Hb Hbk). cbn [bind].
  set (rest := drop (S (Z.to_nat (iIndex top))) bucket) in *.
  destruct (Z.ltb_spec (iIndex top + 1) (size bucket)) as [Hlt|Hge].
  - destruct (get_in_range bucket (iIndex top + 1)) as (v & Hget & Hv); [lia|].
    rewrite Hget. cbn [bind].
    set (h1 := heap_push (mkItem v (bIndex top) (iIndex top + 1)) h').
    assert (Hpend1 : Permutation (pending buckets (heap_items h1))
                       (rest ++ pending buckets (heap_items h'))).
    { unfold h1.
      rewrite (pending_Permutation buckets _ _ (heap_push_items _ _)).
      cbn [pending]. apply Permutation_app_tail. unfold itemTail. simpl.
      rewrite Hbk. simpl. unfold rest.
      by replace (Z.to_nat (iIndex top + 1))
        with (S (Z.to_nat (iIndex top))) by lia. }
    destruct (IH h1 (dest ++ [value top])) as (out & E' & P').
    + unfold h1. rewrite heap_push_items. constructor; [|done].
      unfold validItem. simpl. repeat split; [lia..|]. eauto.
    + rewrite Hpend1. rewrite length_app in Hlen |- *. lia.
    + exists out. split; [done|].
      rewrite P', Hpend1, Hpend. by rewrite <- app_assoc.
  - assert (Hrest : rest = [])
      by (unfold rest; apply drop_ge; unfold size in Hge; lia).
    rewrite Hrest in *. simpl in Hpend, Hlen.
    destruct (IH h' (dest ++ [value top])) as (out & E' & P'); [done|lia|].
    exists out. split; [done|]. rewrite P', Hpend. by rewrite <- app_assoc.
Qed.

Lemma alpayMultiBucketMerge_permutes (dest : list Z) :
  exists out,
    alpayMultiBucketMerge buckets dest = Done out /\
    Permutation out (concat buckets).
Proof using Type.
  unfold alpayMultiBucketMerge, heapInit.
  destruct (heapInit_from buckets buckets [] heap_new eq_refl) as (h & E & V & P).
  { rewrite heap_new_items. constructor. }
  change (size (@nil (list Z))) with 0 in E. rewrite E. cbn [bind].
  rewrite heap_new_items in P. simpl in P.
  destruct (mergeLoop_permutes (Z.to_nat (totalSize buckets)) h [])
    as (out & E' & P').
  - done.
  - rewrite totalSize_concat, P. unfold size. lia.
  - exists out. split; [done|]. by rewrite P', P.
Qed.

End MergeAnyBuckets.

(** X5: whatever the buckets hold, in order or not, and whatever heap is used,
    the merge returns: every read is inside a bucket and the loop ends after
    one turn per element.  Its output is a permutation of the buckets'
    contents; buckets that are all empty, or no bucket at all, give the empty
    vector. *)
Theorem alpayMultiBucketMerge_any_buckets {MH : MinHeap}
  (buckets : list (list Z)) (dest : list Z) :
  exists out,
    alpayMultiBucketMerge buckets dest = Done out /\
    Permutation out (concat buckets) /\
    length out = sum_list (length <$> buckets) /\
    (Forall (fun b => b = []) buckets -> out = []).
Proof.
  destruct (alpayMultiBucketMerge_permutes buckets dest) as (out & E & P).
  exists out. split; [done|]. split; [done|]. split.
  - by rewrite (Permutation_length P), length_concat.
  - intros Hempty.
    assert (Hnil : concat buckets = [])
      by (clear -Hempty; induction Hempty as [|b l -> _ IH]; [done|]; by simpl).
    rewrite Hnil in P. by apply Permutation_nil_r in P.
Qed.

Lemma heap_pop_empty {MH : MinHeap} (h : heap) :
  heap_items h = [] -> heap_pop h = None.
Proof.
  intros Hitems. destruct (heap_pop h) as [[x h']|] eqn:Hpop; [|done].
  destruct (heap_pop_some _ _ _ Hpop) as [Hperm _].
  rewrite Hitems in Hperm. by apply Permutation_nil_cons in Hperm.
Qed.

Lemma mergeLoop_single {MH : MinHeap} (b : list Z) (fuel : nat) :
  forall (i : nat) (v : Z) (h : heap) (dest : list Z),
    b !! i = Some v ->
    Permutation (heap_items h) [mkItem v 0 (Z.of_nat i)] ->
    (length b - i <= fuel)%nat ->
    mergeLoop fuel [b] h dest = Done (dest ++ drop i b).
Proof.
  induction fuel as [|fuel IH]; intros i v h dest Hv Hitems Hfuel;
    pose proof (lookup_lt_Some _ _ _ Hv) as Hi; [lia|].
  cbn [mergeLoop]. destruct (heap_pop h) as [[top h']|] eqn:Hpop.
  2:{ rewrite (heap_pop_none _ Hpop) in Hitems.
      by apply Permutation_nil_cons in Hitems. }
  destruct (heap_pop_some _ _ _ Hpop) as [Hperm _].
  rewrite Hperm in Hitems. apply Permutation_singleton_r in Hitems.
  injection Hitems as -> Hrest. simpl.
  change (get [b] 0) with (Done b). cbn [bind].
  rewrite (drop_S b v i Hv).
  destruct (Z.ltb_spec (Z.of_nat i + 1) (size b)) as [Hlt|Hge].
  - destruct (lookup_lt_is_Some_2 b (S i)) as [v' Hv'];
      [unfold size in Hlt; lia|].
    rewrite (get_lookup b (Z.of_nat i + 1) v')
      by (lia || by replace (Z.to_nat (Z.of_nat i + 1)) with (S i) by lia).
    cbn [bind].
    replace (Z.of_nat i + 1) with (Z.of_nat (S i)) by lia.
    rewrite (IH (S i) v'); [by rewrite <- app_assoc|done| |lia].
    by rewrite heap_push_items, Hrest.
  - rewrite (drop_ge b (S i)) by (unfold size in Hge; lia).
    destruct fuel; cbn [mergeLoop]; by rewrite (heap_pop_empty h' Hrest).
Qed.

(** X6: a single bucket is given back as it is, element for element, in order
    or not, whatever heap is used. *)
Theorem alpayMultiBucketMerge_single_bucket {MH : MinHeap}
  (b dest : list Z) :
  alpayMultiBucketMerge [b] dest = Done b.
Proof.
  unfold alpayMultiBucketMerge, heapInit, totalSize.
  change (seqZ 0 (size [b])) with [0]. cbn [forEach fold_left].
  change (get [b] 0) with (Done b). cbn [bind].
  destruct b as [|v t].
  - simpl. by rewrite (heap_pop_empty heap_new heap_new_items).
  - replace (size (v :: t) =? 0) with false
      by (rewrite size_cons; pose proof (size_nonneg t);
          symmetry; apply Z.eqb_neq; lia).
    change (get (v :: t) 0) with (Done v). cbn [bind].
    rewrite (mergeLoop_single (v :: t) _ O v); [done|done| |unfold size; lia].
    by rewrite heap_push_items, heap_new_items.
Qed.

(** ** Pivot selection: the numbers *)

Lemma holdsFrom_spec (f : Z -> bool) (count : nat) :
  forall n : Z, holdsFrom f count n = true ->
    forall m : Z, n <= m < n + Z.of_nat count -> f m = true.
Proof.
  induction count as [|count IH]; intros n H m Hm; [lia|].
  cbn [holdsFrom] in H. apply andb_true_iff in H as [Hn Hrest].
  destruct (Z.eq_dec m n) as [->|Hne]; [done|].
  apply (IH (n + 1) Hrest). lia.
Qed.

Lemma outlierCut_checked :
  holdsFrom (fun n => outlierCut n =? 3 * n / 20) (Z.to_nat 131073) 0 = true.
Proof. vm_compute. reflexivity. Qed.

Lemma outlierCut_small (n : Z) :
  0 <= n <= 131072 -> outlierCut n = 3 * n / 20.
Proof.
  intros Hn. apply Z.eqb_eq.
  apply (holdsFrom_spec _ _ _ outlierCut_checked). lia.
Qed.

Lemma pivotCountOf_int (size_ : Z) :
  0 <= size_ < 2 ^ 31 -> 2 <= pivotCountOf size_ <= 46340.
Proof.
  intros Hs. unfold pivotCountOf.
  assert (Z.sqrt size_ < 46341) by (apply Z.sqrt_lt_square; lia).
  lia.
Qed.

(** X7: the floating-point product of line 120 is the integer part of 15% of the
    sample count: for every sample count up to 2^17 the cut is [3 * n / 20]
    in integer arithmetic, and so, for the sample count of every range whose
    size fits an [int], it is [3 * pivotCount / 10]. *)
Theorem outlierCut_is_integer_arithmetic (n size_ : Z) :
  0 <= n <= 131072 -> 0 <= size_ < 2 ^ 31 ->
  outlierCut n = 3 * n / 20 /\
  outlierCut (pivotSampleCountOf (pivotCountOf size_))
  = 3 * pivotCountOf size_ / 10.
Proof.
  intros Hn Hs. split; [by apply outlierCut_small|].
  pose proof (pivotCountOf_int size_ Hs) as Hpc.
  rewrite pivotSampleCountOf_double by lia.
  rewrite outlierCut_small by lia.
  replace (3 * (2 * pivotCountOf size_)) with (2 * (3 * pivotCountOf size_))
    by lia.
  change 20 with (2 * 10). by rewrite Z.div_mul_cancel_l.
Qed.

Lemma outlierCut_is_integer_arithmetic_witness :
  outlierCut 20 = 3 * 20 / 20 /\
  outlierCut (pivotSampleCountOf (pivotCountOf 44)) = 3 * pivotCountOf 44 / 10.
Proof.
  apply (outlierCut_is_integer_arithmetic 20 44).
  - lia.
  - lia.
Defined.

(** ** Pivot selection: where the pivots come from *)

Lemma subrange_lookup (arr : list Z) (start end_ : Z) (r : Z) :
  0 <= start -> 0 <= r <= end_ - start ->
  subrange arr start end_ !! Z.to_nat r = arr !! Z.to_nat (start + r).
Proof.
  intros Hs Hr. unfold subrange.
  rewrite lookup_take_lt by lia. rewrite lookup_drop. f_equal. lia.
Qed.

Lemma gatherSamples_in_range (rand : nat -> nat) (k : nat) (arr : list Z)
  (start end_ : Z) (n : nat) :
  0 <= start -> start <= end_ -> end_ < size arr ->
  exists samples,
    gatherSamples rand k arr start (end_ - start + 1) (Z.of_nat n)
    = Done (samples, (k + n)%nat) /\
    length samples = n /\
    Forall (fun x => x ∈ subrange arr start end_) samples.
Proof.
  intros Hs Hse He. unfold gatherSamples. induction n as [|n IH].
  - exists []. simpl. rewrite Nat.add_0_r. by repeat split.
  - destruct IH as (samples & E & L & F).
    rewrite seqZ_S, forEach_app, E. cbn [bind forEach].
    pose proof (Z.rem_bound_pos (Z.of_nat (rand (k + n)%nat))
                  (end_ - start + 1) ltac:(lia) ltac:(lia)) as Hr.
    set (r := Z.rem (Z.of_nat (rand (k + n)%nat)) (end_ - start + 1)) in *.
    destruct (get_in_range arr (start + r)) as (x & Hget & Hx); [lia|].
    rewrite Hget. cbn [bind]. exists (samples ++ [x]).
    split; [do 2 f_equal; lia|]. split.
    + rewrite length_app. simpl. lia.
    + apply Forall_app. split; [done|]. constructor; [|done].
      apply (list_elem_of_lookup_2 _ (Z.to_nat r)).
      rewrite subrange_lookup by lia. done.
Qed.

Lemma selectPivots_from_range_spec (rand : nat -> nat) (k : nat)
  (arr : list Z) (start end_ : Z) :
  0 <= start -> start <= end_ -> end_ < size arr ->
  exists pivots,
    selectPivots rand k arr start end_
    = Done (pivots,
            (k + Z.to_nat (2 * pivotCountOf (end_ - start + 1)))%nat) /\
    size pivots = pivotCountOf (end_ - start + 1) /\
    Sorted Z.le pivots /\
    Forall (fun x => x ∈ subrange arr start end_) pivots.
Proof.
  intros Hs Hse He. unfold selectPivots.
  pose proof (pivotCountOf_ge2 (end_ - start + 1)) as Hpc.
  set (pc := pivotCountOf (end_ - start + 1)) in *.
  rewrite pivotSampleCountOf_double by lia.
  destruct (gatherSamples_in_range rand k arr start end_
              (Z.to_nat (2 * pc)) Hs Hse He) as (samples & E & L & F).
  rewrite Z2Nat.id in E by lia. rewrite E. cbn [bind].
  destruct (alpayTripleFix_whole samples) as (sorted & E1 & P1 & S1).
  rewrite E1. cbn [bind].
  assert (Hsorted : size sorted = 2 * pc)
    by (unfold size; rewrite <- (Permutation_length P1); lia).
  destruct (trimOutliers_spec sorted pc ltac:(lia)) as [Htrim Hsub].
  destruct (pickPivots_spec (trimOutliers sorted pc) pc ltac:(lia))
    as (pivots & E2 & L2 & F2).
  rewrite E2. cbn [bind]. unfold alpayTripleSortPivotArray.
  destruct (alpayTripleFix_whole pivots) as (pivots' & E3 & P3 & S3).
  rewrite E3. cbn [bind]. exists pivots'.
  split; [done|]. split.
  { unfold size. by rewrite <- (Permutation_length P3). }
  split; [done|]. rewrite <- P3.
  eapply Forall_impl; [exact F2|]. simpl. intros x Hx.
  apply Hsub in Hx. rewrite <- P1 in Hx.
  by eapply Forall_forall in F.
Qed.

(** X8: on a non-empty range inside the vector, pivot selection (lines 106-134)
    returns [pivotCount] pivots in ascending order, each of them an element of
    the range, and it takes exactly [2 * pivotCount] draws, whatever the
    draws are. *)
Theorem selectPivots_from_range (rand : nat -> nat) (k : nat)
  (arr : list Z) (start end_ : Z) :
  0 <= start -> start <= end_ -> end_ < size arr ->
  exists pivots,
    selectPivots rand k arr start end_
    = Done (pivots,
            (k + Z.to_nat (2 * pivotCountOf (end_ - start + 1)))%nat) /\
    size pivots = pivotCountOf (end_ - start + 1) /\
    Sorted Z.le pivots /\
    Forall (fun x => x ∈ subrange arr start end_) pivots.
Proof. apply selectPivots_from_range_spec. Qed.

Lemma selectPivots_from_range_witness :
  exists pivots,
    selectPivots demoDraws 0 demo 2 40
    = Done (pivots, (0 + Z.to_nat (2 * pivotCountOf (40 - 2 + 1)))%nat) /\
    size pivots = pivotCountOf (40 - 2 + 1) /\
    Sorted Z.le pivots /\
    Forall (fun x => x ∈ subrange demo 2 40) pivots.
Proof.
  apply (selectPivots_from_range demoDraws 0 demo 2 40).
  - lia.
  - lia.
  - vm_compute. reflexivity.
Defined.

Lemma Sorted_take_drop (l : list Z) (c n : nat) :
  Sorted Z.le l -> Sorted Z.le (take n (drop c l)).
Proof.
  intros Hs. apply (Sorted_StronglySorted Z.le) in Hs.
  rewrite <- (take_drop c l) in Hs. apply StronglySorted_app_1_r in Hs.
  rewrite <- (take_drop n (drop c l)) in Hs.
  apply StronglySorted_app_1_l in Hs. by apply StronglySorted_Sorted.
Qed.

(** With [2 * pivotCount] samples the guard of line 121 always holds: both
    ends are trimmed by [3 * pivotCount / 10] samples. *)
Lemma trimOutliers_double (samples : list Z) (pc : Z) :
  2 <= pc <= 65536 -> size samples = 2 * pc ->
  trimOutliers samples pc
  = take (Z.to_nat (2 * pc - 2 * (3 * pc / 10)))
      (drop (Z.to_nat (3 * pc / 10)) samples).
Proof.
  intros Hpc Hsize. unfold trimOutliers.
  rewrite Hsize, outlierCut_small by lia.
  replace (3 * (2 * pc)) with (2 * (3 * pc)) by lia.
  change 20 with (2 * 10). rewrite Z.div_mul_cancel_l by lia.
  pose proof (Z.mul_div_le (3 * pc) 10 ltac:(lia)) as Hc.
  assert (0 <= 3 * pc / 10) by (apply Z.div_pos; lia).
  destruct (Z.ltb_spec (3 * pc / 10 * 2) (2 * pc - pc)); [|lia].
  f_equal. unfold size in *. rewrite length_drop. lia.
Qed.

Lemma pickPivots_stride_one (l : list Z) (pc : Z) :
  0 <= pc <= size l -> strideOf l pc = 1 ->
  pickPivots l pc = Done (take (Z.to_nat pc) l).
Proof.
  intros Hpc Hstep. unfold pickPivots. rewrite Hstep.
  assert (Hgen : forall n : nat, (n <= length l)%nat ->
    forEach (fun i pivots => let* x := get l (i * 1) in Done (pivots ++ [x]))
      (seqZ 0 (Z.of_nat n)) [] = Done (take n l)).
  { induction n as [|n IH]; intros Hn; [done|].
    rewrite seqZ_S, forEach_app, IH by lia. cbn [bind forEach].
    destruct (lookup_lt_is_Some_2 l n) as [x Hx]; [lia|].
    assert (Hget : get l ((0 + Z.of_nat n) * 1) = Done x).
    { apply get_lookup; [lia|].
      by replace (Z.to_nat ((0 + Z.of_nat n) * 1)) with n by lia. }
    rewrite Hget. cbn [bind]. by rewrite (take_S_r l n x Hx). }
  rewrite <- (Z2Nat.id pc) at 1 by lia. apply Hgen. unfold size in Hpc. lia.
Qed.

Lemma selectPivots_low_run_spec (rand : nat -> nat) (k : nat) (arr : list Z)
  (start end_ : Z) :
  0 <= start -> end_ < size arr -> 16 <= end_ - start + 1 < 2 ^ 31 ->
  exists samples sorted k',
    gatherSamples rand k arr start (end_ - start + 1)
      (pivotSampleCountOf (pivotCountOf (end_ - start + 1)))
    = Done (samples, k') /\
    Permutation samples sorted /\ Sorted Z.le sorted /\
    size sorted = 2 * pivotCountOf (end_ - start + 1) /\
    1 <= 3 * pivotCountOf (end_ - start + 1) / 10 /\
    selectPivots rand k arr start end_
    = Done (take (Z.to_nat (pivotCountOf (end_ - start + 1)))
              (drop (Z.to_nat (3 * pivotCountOf (end_ - start + 1) / 10))
                 sorted), k').
Proof.
  intros Hs He Hsz. unfold selectPivots.
  pose proof (pivotCountOf_int (end_ - start + 1) ltac:(lia)) as Hpc.
  assert (H4 : 4 <= pivotCountOf (end_ - start + 1)).
  { unfold pivotCountOf.
    pose proof (Z.sqrt_le_mono 16 (end_ - start + 1) ltac:(lia)) as Hm.
    change (Z.sqrt 16) with 4 in Hm. lia. }
  set (pc := pivotCountOf (end_ - start + 1)) in *.
  rewrite pivotSampleCountOf_double by lia.
  destruct (gatherSamples_in_range rand k arr start end_
              (Z.to_nat (2 * pc)) Hs ltac:(lia) He) as (samples & E & L & _).
  rewrite Z2Nat.id in E by lia. rewrite E. cbn [bind].
  destruct (alpayTripleFix_whole samples) as (sorted & E1 & P1 & S1).
  rewrite E1. cbn [bind].
  assert (Hsorted : size sorted = 2 * pc)
    by (unfold size; rewrite <- (Permutation_length P1); lia).
  assert (Hcut : 1 <= 3 * pc / 10) by (apply Z.div_le_lower_bound; lia).
  pose proof (Z.mul_div_le (3 * pc) 10 ltac:(lia)) as Hc.
  rewrite (trimOutliers_double sorted pc) by lia.
  set (cut := 3 * pc / 10) in *.
  set (trimmed := take (Z.to_nat (2 * pc - 2 * cut)) (drop (Z.to_nat cut) sorted)).
  assert (Hm : size trimmed = 2 * pc - 2 * cut).
  { unfold trimmed, size in *. rewrite length_take, length_drop. lia. }
  assert (Hstep : strideOf trimmed pc = 1).
  { unfold strideOf. rewrite Hm. rewrite Z.quot_div_nonneg by lia.
    assert ((2 * pc - 2 * cut) / pc = 1)
      by (symmetry; apply (Z.div_unique _ _ _ (pc - 2 * cut)); lia).
    lia. }
  rewrite (pickPivots_stride_one trimmed pc) by (done || lia). cbn [bind].
  assert (Hpiv : take (Z.to_nat pc) trimmed
                 = take (Z.to_nat pc) (drop (Z.to_nat cut) sorted)).
  { unfold trimmed. rewrite take_take. f_equal. lia. }
  rewrite Hpiv. unfold alpayTripleSortPivotArray.
  destruct (alpayTripleFix_whole (take (Z.to_nat pc) (drop (Z.to_nat cut) sorted)))
    as (pivots' & E3 & P3 & S3).
  rewrite E3. cbn [bind].
  rewrite <- (Sorted_unique Z.le _ pivots' (Sorted_take_drop sorted _ _ S1) S3 P3).
  exists samples, sorted, (k + Z.to_nat (2 * pc))%nat. by repeat split.
Qed.

(** X9: from sixteen elements on (pivotCount >= 4) the stride of line 129 is 1:
    the pivots are [pivotCount] consecutive values of the sorted samples,
    starting after the [3 * pivotCount / 10] lowest.  The samples above them,
    more than the trimming asks for, never become pivots. *)
Theorem selectPivots_low_run (rand : nat -> nat) (k : nat) (arr : list Z)
  (start end_ : Z) :
  0 <= start -> end_ < size arr -> 16 <= end_ - start + 1 < 2 ^ 31 ->
  exists samples sorted k',
    gatherSamples rand k arr start (end_ - start + 1)
      (pivotSampleCountOf (pivotCountOf (end_ - start + 1)))
    = Done (samples, k') /\
    Permutation samples sorted /\ Sorted Z.le sorted /\
    size sorted = 2 * pivotCountOf (end_ - start + 1) /\
    1 <= 3 * pivotCountOf (end_ - start + 1) / 10 /\
    selectPivots rand k arr start end_
    = Done (take (Z.to_nat (pivotCountOf (end_ - start + 1)))
              (drop (Z.to_nat (3 * pivotCountOf (end_ - start + 1) / 10))
                 sorted), k').
Proof. apply selectPivots_low_run_spec. Qed.

Lemma selectPivots_low_run_witness :
  exists samples sorted k',
    gatherSamples demoDraws 0 demo 0 (43 - 0 + 1)
      (pivotSampleCountOf (pivotCountOf (43 - 0 + 1)))
    = Done (samples, k') /\
    Permutation samples sorted /\ Sorted Z.le sorted /\
    size sorted = 2 * pivotCountOf (43 - 0 + 1) /\
    1 <= 3 * pivotCountOf (43 - 0 + 1) / 10 /\
    selectPivots demoDraws 0 demo 0 43
    = Done (take (Z.to_nat (pivotCountOf (43 - 0 + 1)))
              (drop (Z.to_nat (3 * pivotCountOf (43 - 0 + 1) / 10))
                 sorted), k').
Proof.
  apply (selectPivots_low_run demoDraws 0 demo 0 43).
  - lia.
  - vm_compute. reflexivity.
  - split; vm_compute; [discriminate|reflexivity].
Defined.

Example selectPivots_demo :
  selectPivots demoDraws 0 demo 0 43 = Done ([2; 4; 6; 8; 19; 74], 12%nat).
Proof. vm_compute. reflexivity. Qed.

(** ** The driver on any range *)

Lemma range_split (arr : list Z) (start end_ : Z) :
  0 <= start <= end_ + 1 -> end_ < size arr ->
  arr = take (Z.to_nat start) arr ++ subrange arr start end_
        ++ drop (Z.to_nat (end_ + 1)) arr.
Proof.
  intros Hs He.
  destruct (range_decompose arr start end_ Hs He)
    as (pre & mid & post & -> & <- & <-).
  rewrite take_pre, subrange_middle, (drop_post pre mid post) by lia. done.
Qed.

(** X10: on a range inside the vector the driver never reads or writes outside a
    vector, whatever the draws and the heap; and whenever it returns, the
    range holds the sorted permutation of what it held, the vector has kept
    its length, and the elements in front of and behind the range are as
    before. *)
Theorem alpayFractalSortAdvanced_range_safe_and_sorted {MH : MinHeap}
  (fuel : nat) (rand : nat -> nat) (k : nat) (arr : list Z) (start end_ : Z) :
  0 <= start <= end_ + 1 -> end_ < size arr ->
  match alpayFractalSortAdvanced fuel rand k arr start end_ with
  | OutOfFuel => True
  | Fault => False
  | Done (arr', _) =>
      length arr' = length arr /\
      take (Z.to_nat start) arr' = take (Z.to_nat start) arr /\
      drop (Z.to_nat (end_ + 1)) arr' = drop (Z.to_nat (end_ + 1)) arr /\
      Permutation (subrange arr start end_) (subrange arr' start end_) /\
      Sorted Z.le (subrange arr' start end_)
  end.
Proof.
  intros Hs He.
  destruct (range_decompose arr start end_ Hs He)
    as (pre & mid & post & -> & <- & <-).
  pose proof (alpayFractalSortAdvanced_partial fuel rand k pre mid post) as H.
  destruct (alpayFractalSortAdvanced fuel rand k (pre ++ mid ++ post)
              (size pre) (size pre + size mid - 1)) as [[arr' k']| |];
    [|done..].
  destruct H as (mid' & -> & P & S).
  assert (Hsz : size mid' = size mid)
    by (unfold size; by rewrite (Permutation_length P)).
  split. { rewrite !length_app. by rewrite (Permutation_length P). }
  rewrite !take_pre. rewrite !(drop_post pre _ post) by lia.
  rewrite subrange_middle. rewrite <- Hsz. rewrite subrange_middle.
  by repeat split.
Qed.

Lemma alpayFractalSortAdvanced_range_safe_and_sorted_witness :
  match alpayFractalSortAdvanced 3 demoDraws 0 demo 2 40 with
  | OutOfFuel => True
  | Fault => False
  | Done (arr', _) =>
      length arr' = length demo /\
      take (Z.to_nat 2) arr' = take (Z.to_nat 2) demo /\
      drop (Z.to_nat (40 + 1)) arr' = drop (Z.to_nat (40 + 1)) demo /\
      Permutation (subrange demo 2 40) (subrange arr' 2 40) /\
      Sorted Z.le (subrange arr' 2 40)
  end.
Proof.
  apply (alpayFractalSortAdvanced_range_safe_and_sorted 3 demoDraws 0 demo 2 40).
  - lia.
  - vm_compute. reflexivity.
Defined.

Example alpayFractalSortAdvanced_inner_range :
  fst <$> (match alpayFractalSortAdvanced 3 demoDraws 0 demo 2 40 with
           | Done r => Some r
           | _ => None
           end)
  = Some [18; 2; 0; 0; 1; 4; 5; 6; 7; 8; 8; 9; 12; 17; 19; 23; 29; 35; 43;
          57; 59; 74; 75; 75; 231; 248; 342; 559; 560; 586; 668; 678; 754;
          765; 788; 866; 965; 976; 2485; 2495; 2495; 86; 75578; 98].
Proof. vm_compute. reflexivity. Qed.

Lemma alpayFractalSortAdvanced_sorted_fixed_if_it_returns_witness :
  exists out k',
    alpayFractalSortAdvanced 3 demoDraws 0 sorted14 0 (size sorted14 - 1)
    = Done (out, k') /\ out = sorted14.
Proof.
  eexists _, _. split; [vm_compute; reflexivity|].
  apply (alpayFractalSortAdvanced_sorted_fixed_if_it_returns
           3 demoDraws 0 sorted14 _ 6%nat).
  - unfold sorted14. repeat constructor; lia.
  - vm_compute. reflexivity.
Defined.

(** ** Draws that keep the driver from returning *)

Lemma size_subrange (arr : list Z) (start end_ : Z) :
  0 <= start <= end_ + 1 -> end_ < size arr ->
  size (subrange arr start end_) = end_ - start + 1.
Proof.
  intros Hs He. unfold subrange, size in *.
  rewrite length_take, length_drop. lia.
Qed.

Lemma gatherSamples_forall (Q : Z -> Prop) (rand : nat -> nat) (k : nat)
  (arr : list Z) (start end_ : Z) (n : nat) :
  0 <= start -> start <= end_ -> end_ < size arr ->
  (forall (j : nat) (x : Z),
     subrange arr start end_
       !! Z.to_nat (Z.rem (Z.of_nat (rand j)) (end_ - start + 1)) = Some x ->
     Q x) ->
  exists samples,
    gatherSamples rand k arr start (end_ - start + 1) (Z.of_nat n)
    = Done (samples, (k + n)%nat) /\
    length samples = n /\ Forall Q samples.
Proof.
  intros Hs Hse He HQ. unfold gatherSamples. induction n as [|n IH].
  - exists []. simpl. rewrite Nat.add_0_r. by repeat split.
  - destruct IH as (samples & E & L & F).
    rewrite seqZ_S, forEach_app, E. cbn [bind forEach].
    pose proof (Z.rem_bound_pos (Z.of_nat (rand (k + n)%nat))
                  (end_ - start + 1) ltac:(lia) ltac:(lia)) as Hr.
    specialize (HQ (k + n)%nat).
    set (r := Z.rem (Z.of_nat (rand (k + n)%nat)) (end_ - start + 1)) in *.
    destruct (get_in_range arr (start + r)) as (x & Hget & Hx); [lia|].
    rewrite Hget. cbn [bind]. exists (samples ++ [x]).
    split; [do 2 f_equal; lia|]. split.
    + rewrite length_app. simpl. lia.
    + apply Forall_app. split; [done|]. constructor; [|done].
      apply HQ. rewrite subrange_lookup by lia. done.
Qed.

Lemma selectPivots_forall (Q : Z -> Prop) (rand : nat -> nat) (k : nat)
  (arr : list Z) (start end_ : Z) :
  0 <= start -> start <= end_ -> end_ < size arr ->
  (forall (j : nat) (x : Z),
     subrange arr start end_
       !! Z.to_nat (Z.rem (Z.of_nat (rand j)) (end_ - start + 1)) = Some x ->
     Q x) ->
  exists pivots k',
    selectPivots rand k arr start end_ = Done (pivots, k') /\
    size pivots = pivotCountOf (end_ - start + 1) /\
    Sorted Z.le pivots /\ Forall Q pivots.
Proof.
  intros Hs Hse He HQ. unfold selectPivots.
  pose proof (pivotCountOf_ge2 (end_ - start + 1)) as Hpc.
  set (pc := pivotCountOf (end_ - start + 1)) in *.
  rewrite pivotSampleCountOf_double by lia.
  destruct (gatherSamples_forall Q rand k arr start end_
              (Z.to_nat (2 * pc)) Hs Hse He HQ) as (samples & E & L & F).
  rewrite Z2Nat.id in E by lia. rewrite E. cbn [bind].
  destruct (alpayTripleFix_whole samples) as (sorted & E1 & P1 & S1).
  rewrite E1. cbn [bind].
  assert (Hsorted : size sorted = 2 * pc)
    by (unfold size; rewrite <- (Permutation_length P1); lia).
  destruct (trimOutliers_spec sorted pc ltac:(lia)) as [Htrim Hsub].
  destruct (pickPivots_spec (trimOutliers sorted pc) pc ltac:(lia))
    as (pivots & E2 & L2 & F2).
  rewrite E2. cbn [bind]. unfold alpayTripleSortPivotArray.
  destruct (alpayTripleFix_whole pivots) as (pivots' & E3 & P3 & S3).
  rewrite E3. cbn [bind]. exists pivots', (k + Z.to_nat (2 * pc))%nat.
  split; [done|]. split.
  { unfold size. by rewrite <- (Permutation_length P3). }
  split; [done|]. rewrite <- P3.
  eapply Forall_impl; [exact F2|]. simpl. intros x Hx.
  apply Hsub in Hx. rewrite <- P1 in Hx.
  by eapply Forall_forall in F.
Qed.

Lemma bucketOf_all_le (pivots : list Z) (x : Z) :
  Forall (fun p => p <= x) pivots -> bucketOf pivots x = size pivots.
Proof.
  unfold bucketOf, size. induction 1 as [|p l Hp _ IH]; [done|].
  simpl. destruct (Z.leb_spec p x); [|lia]. simpl. lia.
Qed.

Lemma filter_all (f : Z -> bool) (l : list Z) :
  Forall (fun x => f x = true) l -> List.filter f l = l.
Proof. induction 1 as [|x l Hx _ IH]; simpl; [done|]. by rewrite Hx, IH. Qed.

Lemma filter_none (f : Z -> bool) (l : list Z) :
  Forall (fun x => f x = false) l -> List.filter f l = [].
Proof. induction 1 as [|x l Hx _ IH]; simpl; [done|]. by rewrite Hx. Qed.

Lemma alpayFractalSortAdvanced_min_draws_diverge {MH : MinHeap}
  (rand : nat -> nat) (fuel : nat) :
  forall (arr : list Z) (start end_ : Z) (k : nat),
    0 <= start -> end_ < size arr ->
    ALPAY_SMALL_THRESH < end_ - start + 1 ->
    drawsHitMinimum rand (subrange arr start end_) ->
    alpayFractalSortAdvanced fuel rand k arr start end_ = OutOfFuel.
Proof.
  unfold ALPAY_SMALL_THRESH.
  induction fuel as [|fuel IH]; intros arr start end_ k Hs He Hsz Hmin;
    cbn [alpayFractalSortAdvanced];
    (destruct (Z.leb_spec (end_ - start + 1) ALPAY_SMALL_THRESH) as [Hle|_];
     [unfold ALPAY_SMALL_THRESH in Hle; lia|]); [done|].
  set (mid := subrange arr start end_) in *.
  assert (Hmid : size mid = end_ - start + 1)
    by (apply size_subrange; lia).
  destruct (selectPivots_forall (fun x => Forall (Z.le x) mid)
              rand k arr start end_ Hs ltac:(lia) He)
    as (pivots & k' & E1 & L1 & S1 & F1).
  { intros j x Hx. apply (Hmin j). by rewrite Hmid. }
  rewrite E1. cbn [bind]. rewrite <- L1.
  destruct (distribute_spec arr pivots start end_ Hs He S1)
    as (buckets & E2 & L2 & F2 & _).
  rewrite E2. cbn [bind]. fold mid in F2.
  pose proof (size_nonneg pivots) as Hpc.
  assert (Hall : Forall (fun x => bucketOf pivots x = size pivots) mid).
  { apply Forall_forall. intros x Hx. apply bucketOf_all_le.
    eapply Forall_impl; [exact F1|]. simpl. intros p Hp.
    by eapply Forall_forall in Hp. }
  pose proof (pivotCountOf_ge2 (end_ - start + 1)) as Hpc2.
  rewrite (sortBuckets_runs_out (alpayFractalSortAdvanced fuel rand) mid
             ltac:(lia)
             ltac:(intros k0; apply IH;
                   [lia|lia|lia|by rewrite subrange_whole])
             (Z.to_nat (size pivots)) buckets k'); [done| |].
  - intros j bucket Hj Hbucket.
    specialize (F2 (Z.of_nat j) ltac:(lia)).
    rewrite Nat2Z.id, Hbucket in F2. injection F2 as ->.
    apply filter_none. eapply Forall_impl; [exact Hall|]. simpl.
    intros x ->. apply Z.eqb_neq. lia.
  - rewrite (F2 (size pivots)) by lia. f_equal.
    apply filter_all. eapply Forall_impl; [exact Hall|]. simpl.
    intros x ->. apply Z.eqb_refl.
Qed.

(** X11: termination depends on the draws even when the elements differ: if every
    draw lands on a position of the range that holds a least element, all
    pivots are that element, the last bucket is the range again, and the
    driver does not return, whatever the recursion budget. *)
Theorem alpayFractalSortAdvanced_never_returns_on_minimum_draws
  {MH : MinHeap} (rand : nat -> nat) (fuel : nat) (arr : list Z)
  (start end_ : Z) (k : nat) :
  0 <= start -> end_ < size arr ->
  ALPAY_SMALL_THRESH < end_ - start + 1 ->
  drawsHitMinimum rand (subrange arr start end_) ->
  alpayFractalSortAdvanced fuel rand k arr start end_ = OutOfFuel.
Proof. apply alpayFractalSortAdvanced_min_draws_diverge. Qed.

(** The vector of [main] with a generator that always returns 7: position 7
    holds 0, the least element. *)
Lemma alpayFractalSortAdvanced_never_returns_on_minimum_draws_witness :
  alpayFractalSortAdvanced 100 (fun _ => 7%nat) 0 demo 0 43 = OutOfFuel.
Proof.
  apply (alpayFractalSortAdvanced_never_returns_on_minimum_draws
           (fun _ => 7%nat) 100 demo 0 43 0).
  - lia.
  - vm_compute. reflexivity.
  - vm_compute. reflexivity.
  - intros k x. change (demo !! 7%nat = Some x -> Forall (Z.le x) demo).
    intros [= <-]. unfold demo. repeat constructor; lia.
Defined.

(** ** What the partition gives the recursion and the merge *)

Lemma bucketOf_mono (pivots : list Z) (x y : Z) :
  x <= y -> bucketOf pivots x <= bucketOf pivots y.
Proof.
  intros Hxy. unfold bucketOf. induction pivots as [|p l IH]; [done|].
  simpl. destruct (Z.leb_spec p x), (Z.leb_spec p y);
    rewrite ?size_cons; try lia.
Qed.

Lemma filter_length_lt (f : Z -> bool) (l : list Z) (x : Z) :
  x ∈ l -> f x = false -> (length (List.filter f l) < length l)%nat.
Proof.
  intros Hx Hf. induction l as [|y l IH]; [by apply not_elem_of_nil in Hx|].
  simpl. pose proof (List.filter_length_le f l).
  apply elem_of_cons in Hx as [<-|Hx].
  - rewrite Hf. lia.
  - specialize (IH Hx). destruct (f y); simpl; lia.
Qed.

Lemma filter_whole (f : Z -> bool) (l : list Z) :
  List.filter f l = l -> Forall (fun x => f x = true) l.
Proof.
  intros Heq. apply Forall_forall. intros x Hx.
  destruct (f x) eqn:Hf; [done|].
  pose proof (filter_length_lt f l x Hx Hf) as Hlt. rewrite Heq in Hlt. lia.
Qed.

(** X12: which bucket can be as long as the range.  With ascending pivots taken
    from the range, every bucket but the last is strictly shorter than the
    range (its own pivot is missing from it); the last bucket is the whole
    range exactly when every pivot is a least element of the range. *)
Theorem distribute_bucket_sizes (arr pivots : list Z) (start end_ : Z) :
  0 <= start -> end_ < size arr -> Sorted Z.le pivots ->
  Forall (fun p => p ∈ subrange arr start end_) pivots ->
  exists buckets last,
    distribute arr start end_ pivots (size pivots) = Done buckets /\
    (forall (b : nat) (bucket : list Z),
       Z.of_nat b < size pivots -> buckets !! b = Some bucket ->
       size bucket < size (subrange arr start end_)) /\
    buckets !! Z.to_nat (size pivots) = Some last /\
    (last = subrange arr start end_ <->
     Forall (fun p => Forall (Z.le p) (subrange arr start end_)) pivots).
Proof.
  intros Hs He Hp Hin.
  destruct (distribute_spec arr pivots start end_ Hs He Hp)
    as (buckets & E & L & F & _).
  set (mid := subrange arr start end_) in *.
  pose proof (size_nonneg pivots) as Hpc.
  exists buckets, (List.filter (fun x => bucketOf pivots x =? size pivots) mid).
  split; [done|]. split; [|split; [apply F; lia|]].
  - intros b bucket Hb Hbucket.
    specialize (F (Z.of_nat b) ltac:(lia)).
    rewrite Nat2Z.id, Hbucket in F. injection F as ->.
    destruct (lookup_lt_is_Some_2 pivots b) as [p Hpb];
      [unfold size in Hb; lia|].
    pose proof (Forall_lookup_1 _ _ _ _ Hin Hpb) as Hpmid. simpl in Hpmid.
    pose proof (proj1 (bucketOf_interval pivots p Hp b p Hpb) ltac:(lia)).
    unfold size at 1 2.
    apply inj_lt, (filter_length_lt _ mid p Hpmid). apply Z.eqb_neq. lia.
  - split.
    + intros Heq. apply filter_whole in Heq. rewrite Forall_forall in Heq.
      apply Forall_forall. intros p Hpin. apply Forall_forall. intros x Hx.
      apply list_elem_of_lookup in Hpin as [j Hj].
      apply Heq, Z.eqb_eq in Hx.
      apply (bucketOf_interval pivots x Hp j p Hj).
      apply lookup_lt_Some in Hj. unfold size in *. lia.
    + intros Hmin. apply filter_all. apply Forall_forall. intros x Hx.
      apply Z.eqb_eq, bucketOf_all_le.
      eapply Forall_impl; [exact Hmin|]. simpl. intros p Hpx.
      by eapply Forall_forall in Hpx.
Qed.

Lemma distribute_bucket_sizes_witness :
  exists buckets last,
    distribute [7; 1; 5; 9; 3; 5; 0] 1 5 [3; 5] (size [3; 5]) = Done buckets /\
    (forall (b : nat) (bucket : list Z),
       Z.of_nat b < size [3; 5] -> buckets !! b = Some bucket ->
       size bucket < size (subrange [7; 1; 5; 9; 3; 5; 0] 1 5)) /\
    buckets !! Z.to_nat (size [3; 5]) = Some last /\
    (last = subrange [7; 1; 5; 9; 3; 5; 0] 1 5 <->
     Forall (fun p => Forall (Z.le p) (subrange [7; 1; 5; 9; 3; 5; 0] 1 5))
       [3; 5]).
Proof.
  apply (distribute_bucket_sizes [7; 1; 5; 9; 3; 5; 0] [3; 5] 1 5).
  - lia.
  - vm_compute. reflexivity.
  - repeat constructor. lia.
  - change (Forall (fun p => p ∈ [1; 5; 9; 3; 5]) [3; 5]).
    repeat constructor.
Defined.

Lemma distribute_ascend_spec (arr pivots : list Z) (start end_ : Z) :
  0 <= start -> end_ < size arr -> Sorted Z.le pivots ->
  exists buckets,
    distribute arr start end_ pivots (size pivots) = Done buckets /\
    (forall (i j : nat) (bi bj : list Z) (x y : Z),
       (i < j)%nat -> buckets !! i = Some bi -> buckets !! j = Some bj ->
       x ∈ bi -> y ∈ bj -> x < y).
Proof.
  intros Hs He Hp.
  destruct (distribute_spec arr pivots start end_ Hs He Hp)
    as (buckets & E & L & F & _).
  exists buckets. split; [done|].
  intros i j bi bj x y Hij Hi Hj Hx Hy.
  pose proof (lookup_lt_Some _ _ _ Hi) as Hli.
  pose proof (lookup_lt_Some _ _ _ Hj) as Hlj. unfold size in L.
  pose proof (F (Z.of_nat i) ltac:(unfold size; lia)) as Fi.
  pose proof (F (Z.of_nat j) ltac:(unfold size; lia)) as Fj.
  rewrite Nat2Z.id in Fi, Fj. rewrite Hi in Fi. rewrite Hj in Fj.
  injection Fi as ->. injection Fj as ->.
  apply list_elem_of_In, filter_In in Hx as [_ Hx].
  apply list_elem_of_In, filter_In in Hy as [_ Hy].
  apply Z.eqb_eq in Hx, Hy.
  destruct (Z.lt_ge_cases x y) as [?|Hge]; [done|].
  pose proof (bucketOf_mono pivots y x Hge). lia.
Qed.

(** X13: the buckets come out in ascending order of their contents: every element
    of a bucket is strictly smaller than every element of a later bucket, so
    equal elements always share a bucket. *)
Theorem distribute_buckets_ascend (arr pivots : list Z) (start end_ : Z) :
  0 <= start -> end_ < size arr -> Sorted Z.le pivots ->
  exists buckets,
    distribute arr start end_ pivots (size pivots) = Done buckets /\
    (forall (i j : nat) (bi bj : list Z) (x y : Z),
       (i < j)%nat -> buckets !! i = Some bi -> buckets !! j = Some bj ->
       x ∈ bi -> y ∈ bj -> x < y).
Proof. apply distribute_ascend_spec. Qed.

Lemma distribute_buckets_ascend_witness :
  exists buckets,
    distribute [7; 1; 5; 9; 3; 5; 0] 1 5 [3; 5] (size [3; 5]) = Done buckets /\
    (forall (i j : nat) (bi bj : list Z) (x y : Z),
       (i < j)%nat -> buckets !! i = Some bi -> buckets !! j = Some bj ->
       x ∈ bi -> y ∈ bj -> x < y).
Proof.
  apply (distribute_buckets_ascend [7; 1; 5; 9; 3; 5; 0] [3; 5] 1 5).
  - lia.
  - vm_compute. reflexivity.
  - repeat constructor. lia.
Defined.

Lemma concat_ascending_sorted (buckets : list (list Z)) :
  Forall (Sorted Z.le) buckets -> bucketsAscend buckets ->
  StronglySorted Z.le (concat buckets).
Proof.
  induction 1 as [|b rest Hb _ IH]; intros Hasc; [constructor|].
  simpl. apply StronglySorted_app_2.
  - intros x y Hx Hy. apply list_elem_of_In, in_concat in Hy as (l & Hl & Hy).
    apply list_elem_of_In, list_elem_of_lookup in Hl as [j Hj].
    apply (Hasc O (S j) b l x y); [lia|done|done|done|].
    by apply list_elem_of_In.
  - by apply Sorted_StronglySorted; [apply _|].
  - apply IH. intros i j bi bj x y Hij Hi Hj.
    apply (Hasc (S i) (S j)); [lia|done..].
Qed.

(** X14: when the buckets are sorted and ascend, as the driver's are, the k-way
    merge is their concatenation, whatever heap is used. *)
Theorem alpayMultiBucketMerge_ascending_is_concat {MH : MinHeap}
  (buckets : list (list Z)) (dest : list Z) :
  Forall (Sorted Z.le) buckets -> bucketsAscend buckets ->
  alpayMultiBucketMerge buckets dest = Done (concat buckets).
Proof.
  intros Hsorted Hasc.
  destruct (alpayMultiBucketMerge_spec buckets Hsorted dest) as (out & -> & P & S).
  f_equal. apply (Sorted_unique Z.le); [done| |done].
  by apply StronglySorted_Sorted, concat_ascending_sorted.
Qed.

Lemma alpayMultiBucketMerge_ascending_is_concat_witness :
  alpayMultiBucketMerge [[0; 1]; []; [1; 4; 4]; [7]] [42]
  = Done (concat [[0; 1]; []; [1; 4; 4]; [7]]).
Proof.
  apply (alpayMultiBucketMerge_ascending_is_concat [[0; 1]; []; [1; 4; 4]; [7]] [42]).
  - repeat constructor; lia.
  - intros i j bi bj x y Hij Hi Hj Hx Hy.
    destruct i as [|[|[|[|i]]]], j as [|[|[|[|j]]]]; try lia;
      simpl in Hi, Hj; try discriminate;
      injection Hi as <-; injection Hj as <-;
      repeat (apply elem_of_cons in Hx as [->|Hx]);
      try (by apply not_elem_of_nil in Hx);
      repeat (apply elem_of_cons in Hy as [->|Hy]);
      try (by apply not_elem_of_nil in Hy); lia.
Defined.

(** ** The driver outside the vector, and across runs *)






Example alpayFractalSortAdvanced_reads_past_end :
  alpayFractalSortAdvanced 3 demoDraws 0 demo 0 44 = Fault.
Proof. vm_compute. reflexivity. Qed.

(** X16: the draws, the heap and the recursion budget decide whether the driver
    returns, never what it returns: two runs on the same range that both
    return give the same vector. *)
Theorem alpayFractalSortAdvanced_result_independent_of_draws
  (MH1 MH2 : MinHeap) (fuel1 fuel2 : nat) (rand1 rand2 : nat -> nat)
  (k1 k2 : nat) (arr : list Z) (start end_ : Z)
  (out1 out2 : list Z) (k1' k2' : nat) :
  0 <= start <= end_ + 1 -> end_ < size arr ->
  @alpayFractalSortAdvanced MH1 fuel1 rand1 k1 arr start end_
  = Done (out1, k1') ->
  @alpayFractalSortAdvanced MH2 fuel2 rand2 k2 arr start end_
  = Done (out2, k2') ->
  out1 = out2.
Proof.
  intros Hs He E1 E2.
  destruct (range_decompose arr start end_ Hs He)
    as (pre & mid & post & -> & <- & <-).
  pose proof (@alpayFractalSortAdvanced_partial MH1 fuel1 rand1 k1 pre mid post)
    as H1.
  pose proof (@alpayFractalSortAdvanced_partial MH2 fuel2 rand2 k2 pre mid post)
    as H2.
  rewrite E1 in H1. rewrite E2 in H2.
  destruct H1 as (m1 & -> & P1 & S1), H2 as (m2 & -> & P2 & S2).
  f_equal. f_equal. apply (Sorted_unique Z.le); [done..|].
  by rewrite <- P1, <- P2.
Qed.

Lemma alpayFractalSortAdvanced_result_independent_of_draws_witness :
  exists out1 out2 k1' k2',
    alpayFractalSortAdvanced 3 demoDraws 0 demo 0 43 = Done (out1, k1') /\
    alpayFractalSortAdvanced 4 (fun k => (5 * k + 1)%nat) 9 demo 0 43
    = Done (out2, k2') /\
    out1 = out2.
Proof.
  eexists _, _, _, _.
  split; [vm_compute; reflexivity|]. split; [vm_compute; reflexivity|].
  eapply (alpayFractalSortAdvanced_result_independent_of_draws
            ListHeap ListHeap 3 4 demoDraws (fun k => (5 * k + 1)%nat)
            0 9 demo 0 43).
  - lia.
  - vm_compute. reflexivity.
  - vm_compute. reflexivity.
  - vm_compute. reflexivity.
Defined.

(** ** Inputs and draws on which the driver cannot return *)

Lemma occurrences_filter (f : Z -> bool) (v : Z) (l : list Z) :
  f v = true -> occurrences v (List.filter f l) = occurrences v l.
Proof.
  intros Hf. unfold occurrences. f_equal.
  induction l as [|x l IH]; [done|]. simpl.
  destruct (Z.eqb_spec x v) as [->|Hne].
  - rewrite Hf. simpl. rewrite Z.eqb_refl. by f_equal.
  - destruct (f x); simpl; [|done].
    by destruct (Z.eqb_spec x v).
Qed.

Lemma occurrences_le_size (v : Z) (l : list Z) : occurrences v l <= size l.
Proof.
  unfold occurrences, size.
  pose proof (List.filter_length_le (fun x => x =? v) l). lia.
Qed.

Lemma sortBuckets_runs_out_at
  (sortRec : nat -> list Z -> Z -> Z -> res (list Z * nat)) (big : list Z) :
  (forall k bucket,
     sortsOrRunsOut [] bucket [] (sortRec k bucket 0 (size bucket - 1))) ->
  1 < size big ->
  (forall k, sortRec k big 0 (size big - 1) = OutOfFuel) ->
  forall (i : nat) (buckets : list (list Z)) (k : nat),
    buckets !! i = Some big ->
    sortBuckets sortRec k buckets = OutOfFuel.
Proof.
  intros Hrec Hbig Hout. induction i as [|i IH]; intros buckets k Hi;
    (destruct buckets as [|b rest]; [done|]); cbn [sortBuckets].
  - injection Hi as ->. apply Z.ltb_lt in Hbig. by rewrite Hbig, Hout.
  - simpl in Hi. destruct (1 <? size b).
    + specialize (Hrec k b).
      destruct (sortRec k b 0 (size b - 1)) as [[b' k1]| |]; [|done..].
      cbn [bind]. by rewrite (IH rest k1 Hi).
    + cbn [bind]. by rewrite (IH rest k Hi).
Qed.

Lemma alpayFractalSortAdvanced_duplicates_diverge {MH : MinHeap}
  (rand : nat -> nat) (v : Z) (fuel : nat) :
  forall (arr : list Z) (start end_ : Z) (k : nat),
    0 <= start -> end_ < size arr ->
    ALPAY_SMALL_THRESH < occurrences v (subrange arr start end_) ->
    alpayFractalSortAdvanced fuel rand k arr start end_ = OutOfFuel.
Proof.
  unfold ALPAY_SMALL_THRESH.
  induction fuel as [|fuel IH]; intros arr start end_ k Hs He Hocc;
    pose proof (occurrences_le_size v (subrange arr start end_)) as Hle;
    (assert (Hse : start <= end_ + 1)
       by (destruct (Z.le_gt_cases start (end_ + 1)); [done|];
           rewrite subrange_empty in Hocc by lia;
           unfold occurrences, size in Hocc; simpl in Hocc; lia));
    rewrite size_subrange in Hle by lia;
    cbn [alpayFractalSortAdvanced];
    (destruct (Z.leb_spec (end_ - start + 1) ALPAY_SMALL_THRESH) as [Hsm|_];
     [unfold ALPAY_SMALL_THRESH in Hsm; lia|]); [done|].
  destruct (selectPivots_spec rand k arr start end_ Hs He ltac:(lia))
    as (pivots & k' & E1 & L1 & S1 & _).
  rewrite E1. cbn [bind]. rewrite <- L1.
  destruct (distribute_spec arr pivots start end_ Hs He S1)
    as (buckets & E2 & L2 & F2 & _).
  rewrite E2. cbn [bind].
  pose proof (bucketOf_range pivots v) as Hb.
  specialize (F2 (bucketOf pivots v) Hb).
  set (big := List.filter (fun x => bucketOf pivots x =? bucketOf pivots v)
                (subrange arr start end_)) in *.
  assert (Hbig : 12 < occurrences v big).
  { unfold big. rewrite occurrences_filter; [done|apply Z.eqb_refl]. }
  pose proof (occurrences_le_size v big) as Hbs.
  rewrite (sortBuckets_runs_out_at (alpayFractalSortAdvanced fuel rand) big)
    with (i := Z.to_nat (bucketOf pivots v)); [done| |lia| |done].
  - intros k0 bucket.
    pose proof (alpayFractalSortAdvanced_partial fuel rand k0 [] bucket [])
      as H.
    by rewrite app_nil_r in H.
  - intros k0. apply IH; [lia|lia|]. by rewrite subrange_whole.
Qed.

(** X17: a value that occurs more than [ALPAY_SMALL_THRESH] times in the range
    keeps the driver from returning, whatever the other elements, the draws,
    the heap and the recursion budget: equal elements always go to the same
    bucket, so some bucket is longer than the threshold at every level. *)
Theorem alpayFractalSortAdvanced_never_returns_on_duplicates {MH : MinHeap}
  (rand : nat -> nat) (v : Z) (fuel : nat) (arr : list Z) (start end_ : Z)
  (k : nat) :
  0 <= start -> end_ < size arr ->
  ALPAY_SMALL_THRESH < occurrences v (subrange arr start end_) ->
  alpayFractalSortAdvanced fuel rand k arr start end_ = OutOfFuel.
Proof. apply alpayFractalSortAdvanced_duplicates_diverge. Qed.

Lemma alpayFractalSortAdvanced_never_returns_on_duplicates_witness :
  alpayFractalSortAdvanced 60 demoDraws 0
    ([9; 4; 1] ++ replicate 13 4 ++ [7; 0; 4; 12; 3; 8]) 1 20
  = OutOfFuel.
Proof.
  apply (alpayFractalSortAdvanced_never_returns_on_duplicates
           demoDraws 4 60 ([9; 4; 1] ++ replicate 13 4 ++ [7; 0; 4; 12; 3; 8])
           1 20 0).
  - lia.
  - vm_compute. reflexivity.
  - vm_compute. reflexivity.
Defined.

Lemma least_position (l : list Z) :
  l <> [] ->
  exists (j : nat) (x : Z), l !! j = Some x /\ Forall (Z.le x) l.
Proof.
  induction l as [|a l IH]; [done|]. intros _.
  destruct l as [|b l'].
  - exists O, a. split; [done|]. repeat constructor. lia.
  - destruct IH as (j & x & Hj & Hx); [done|].
    destruct (Z.le_gt_cases a x) as [Hax|Hxa].
    + exists O, a. split; [done|]. constructor; [lia|].
      eapply Forall_impl; [exact Hx|]. simpl. intros; lia.
    + exists (S j), x. split; [done|]. constructor; [lia|done].
Qed.

(** X18: no range longer than the threshold is safe: for each one there is a
    stream of draws (always the position of a least element) under which the
    driver never returns. *)
Theorem alpayFractalSortAdvanced_some_draws_never_return {MH : MinHeap}
  (arr : list Z) (start end_ : Z) :
  0 <= start -> end_ < size arr ->
  ALPAY_SMALL_THRESH < end_ - start + 1 ->
  exists rand : nat -> nat,
    forall (fuel k : nat),
      alpayFractalSortAdvanced fuel rand k arr start end_ = OutOfFuel.
Proof.
  intros Hs He Hsz.
  pose proof Hsz as Hsz'. unfold ALPAY_SMALL_THRESH in Hsz'.
  pose proof (size_subrange arr start end_ ltac:(lia) He) as Hmid.
  destruct (least_position (subrange arr start end_)) as (j & x & Hj & Hx).
  { intros Hnil. rewrite Hnil in Hmid. unfold size in Hmid. simpl in Hmid. lia. }
  exists (fun _ => j). intros fuel k.
  apply alpayFractalSortAdvanced_min_draws_diverge; [done..|].
  intros k0 y. apply lookup_lt_Some in Hj as Hlt.
  rewrite Z.rem_small by (unfold size; lia). rewrite Nat2Z.id, Hj.
  by intros [= <-].
Qed.

Lemma alpayFractalSortAdvanced_some_draws_never_return_witness :
  exists rand : nat -> nat,
    forall (fuel k : nat),
      alpayFractalSortAdvanced fuel rand k demo 0 43 = OutOfFuel.
Proof.
  apply (alpayFractalSortAdvanced_some_draws_never_return demo 0 43).
  - lia.
  - vm_compute. reflexivity.
  - vm_compute. reflexivity.
Defined.

(** ** A bound on the turns of the triple pass *)

Lemma inversions_quadratic (l : list Z) :
  (2 * inversions l <= length l * (length l - 1))%nat.
Proof.
  induction l as [|x t IH]; [simpl; lia|].
  cbn [inversions length].
  pose proof (List.filter_length_le (fun y => y <? x) t). nia.
Qed.

(** X19: the [while] loop of the pass on a range of [n] elements inside the
    vector returns within [n * (n - 1) / 2 + 1] turns: the bound depends on
    the length of the range only. *)
Theorem fixLoop_turns_quadratic (arr : list Z) (start end_ : Z) :
  0 <= start <= end_ + 1 -> end_ < size arr ->
  exists out,
    fixLoop (S (Z.to_nat ((end_ - start + 1) * (end_ - start) / 2)))
      arr start end_ = Done out.
Proof.
  intros Hs He.
  destruct (range_decompose arr start end_ Hs He)
    as (pre & mid & post & -> & <- & <-).
  destruct (fixLoop_range pre post
              (S (Z.to_nat ((size pre + size mid - 1 - size pre + 1)
                            * (size pre + size mid - 1 - size pre) / 2))) mid)
    as (mid' & E & _); [|eauto].
  pose proof (inversions_quadratic mid) as Hq.
  replace (size pre + size mid - 1 - size pre + 1) with (size mid) by lia.
  replace (size pre + size mid - 1 - size pre) with (size mid - 1) by lia.
  unfold size.
  assert (Z.of_nat (inversions mid)
          <= Z.of_nat (length mid) * (Z.of_nat (length mid) - 1) / 2).
  { apply Z.div_le_lower_bound; [lia|]. nia. }
  lia.
Qed.

Lemma fixLoop_turns_quadratic_witness :
  exists out,
    fixLoop (S (Z.to_nat ((4 - 1 + 1) * (4 - 1) / 2)))
      [9; 4; 3; 2; 1; 0] 1 4 = Done out.
Proof.
  apply (fixLoop_turns_quadratic [9; 4; 3; 2; 1; 0] 1 4).
  - lia.
  - vm_compute. reflexivity.
Defined.
